(** * webarchive: the Web Archive data model, its plist codec and the extractor

    A shallow embedding of [src/src/lib.rs] (the [WebResource] and
    [WebArchive] structs with their serde attributes, [total_size] and
    [print_list]) and of [src/src/main.rs] ([save] and [save_archive]).

    The plist crate is an external collaborator: its XML and binary writers
    and readers turn a plist document into bytes and back.  The embedding works
    on the document: [plist] below is the value a plist reader produces, the
    decoders follow what the serde-derived [Deserialize] impls do on it (a
    struct is read from a dictionary), and the encoders follow what the
    serde-derived [Serialize] impls produce through plist's serializer (a
    struct field whose value is [None] is skipped). *)

From Stdlib Require Import String Ascii List Bool Arith Lia ZArith NArith.
From Stdlib Require Import Strings.Byte.
From Stdlib Require Import Sorting.Permutation.
Import ListNotations.
Open Scope string_scope.
Set Warnings "-register-all,-abstract-large-number".

(** ** The plist document *)

Inductive plist : Type :=
| PArray (items : list plist)
| PDictionary (entries : list (string * plist))
| PBoolean (b : bool)
| PData (bytes : list byte)
| PDate (secs : Z)
| PReal (bits : Z)     (* only the kind of a real matters below *)
| PInteger (z : Z)
| PString (s : string)
| PUid (u : N).

(** ** Decoding results: the serde errors the derived impls raise *)

Inductive SchemaError : Type :=
| InvalidType
| InvalidValue
| UnknownField (key : string)
| DuplicateField (field : string)
| MissingField (field : string).

Inductive result (A : Type) : Type :=
| Ok (a : A)
| Err (e : SchemaError).
Arguments Ok {A} a.
Arguments Err {A} e.

Notation "x <- m ;; k" :=
  (match m with Ok x => k | Err e => Err e end)
  (at level 61, m at next level, right associativity).

(** ** The data model (lib.rs, [WebResource] and [WebArchive]) *)

Record WebResource : Type := {
  data : list byte;
  url : string;
  frame_name : option string;
  mime_type : string;
  text_encoding_name : option string;
  response : option (list byte) }.

Inductive WebArchive : Type := mkWebArchive {
  main_resource : WebResource;
  subresources : option (list WebResource);
  subframe_archives : option (list WebArchive) }.

(** ** Primitive visitors

    [String]'s visitor accepts a plist string, and data that is valid UTF-8
    ([String::from_utf8]); serde_bytes' [ByteBuf] visitor accepts data, a
    string (its bytes) and a sequence of [u8]. *)

Definition in_range (lo hi : N) (b : byte) : bool :=
  (lo <=? Byte.to_N b)%N && (Byte.to_N b <=? hi)%N.

Definition cont (b : byte) : bool := in_range 128 191 b.

(** Well-formed UTF-8, as [std::str::from_utf8] checks it. *)
Fixpoint utf8_valid (bs : list byte) : bool :=
  match bs with
  | [] => true
  | b0 :: r0 =>
    if in_range 0 127 b0 then utf8_valid r0 else
    match r0 with
    | [] => false
    | b1 :: r1 =>
      if in_range 194 223 b0 then cont b1 && utf8_valid r1 else
      match r1 with
      | [] => false
      | b2 :: r2 =>
        if in_range 224 224 b0 then in_range 160 191 b1 && cont b2 && utf8_valid r2
        else if in_range 225 236 b0 then cont b1 && cont b2 && utf8_valid r2
        else if in_range 237 237 b0 then in_range 128 159 b1 && cont b2 && utf8_valid r2
        else if in_range 238 239 b0 then cont b1 && cont b2 && utf8_valid r2 else
        match r2 with
        | [] => false
        | b3 :: r3 =>
          if in_range 240 240 b0 then in_range 144 191 b1 && cont b2 && cont b3 && utf8_valid r3
          else if in_range 241 243 b0 then cont b1 && cont b2 && cont b3 && utf8_valid r3
          else if in_range 244 244 b0 then in_range 128 143 b1 && cont b2 && cont b3 && utf8_valid r3
          else false
        end
      end
    end
  end.

Definition de_string (v : plist) : result string :=
  match v with
  | PString s => Ok s
  | PData b => if utf8_valid b then Ok (string_of_list_byte b) else Err InvalidValue
  | _ => Err InvalidType
  end.

Definition u8_of_Z (z : Z) : result byte :=
  if (0 <=? z)%Z then
    match Byte.of_N (Z.to_N z) with Some b => Ok b | None => Err InvalidValue end
  else Err InvalidValue.

Definition de_u8 (v : plist) : result byte :=
  match v with
  | PInteger z => u8_of_Z z
  | PUid u => u8_of_Z (Z.of_N u)
  | _ => Err InvalidType
  end.

Fixpoint map_result {A B} (f : A -> result B) (l : list A) : result (list B) :=
  match l with
  | [] => Ok []
  | x :: l' => y <- f x ;; ys <- map_result f l' ;; Ok (y :: ys)
  end.

Definition de_byte_buf (v : plist) : result (list byte) :=
  match v with
  | PData b => Ok b
  | PString s => Ok (list_byte_of_string s)
  | PArray items => map_result de_u8 items
  | _ => Err InvalidType
  end.

(** A struct field of type [Option<T>] that is present: plist visits [Some]. *)
Definition de_option {A} (de : plist -> result A) (v : plist) : result (option A) :=
  x <- de v ;; Ok (Some x).

(** [Vec<T>]: a plist array, elements decoded in order. *)
Definition de_seq {A} (de : plist -> result A) (v : plist) : result (list A) :=
  match v with
  | PArray items => map_result de items
  | _ => Err InvalidType
  end.

(** [ruma_serde::empty_string_as_none]: read an [Option<String>], and map
    [Some("")] to [None]. *)
Definition empty_string_as_none (v : plist) : result (option string) :=
  o <- de_option de_string v ;;
  match o with
  | Some EmptyString => Ok None
  | o => Ok o
  end.

(** ** The derived [visit_map] of a struct

    serde's derived visitor walks the dictionary's entries in order; each key
    is matched against the field names ([deny_unknown_fields]: an unknown key
    is an error); a field seen twice is an error, checked before its value is
    read; the value is then decoded with the field's deserializer. *)

Fixpoint visit_entries {Acc} (step : Acc -> string -> plist -> result Acc)
    (acc : Acc) (es : list (string * plist)) : result Acc :=
  match es with
  | [] => Ok acc
  | (k, v) :: rest => acc' <- step acc k v ;; visit_entries step acc' rest
  end.

Definition fill {A} (name : string) (slot : option A) (de : result A)
    : result (option A) :=
  match slot with
  | Some _ => Err (DuplicateField name)
  | None => x <- de ;; Ok (Some x)
  end.

(** After the loop: a missing required field is an error; a missing field
    with [#[serde(default)]], or of type [Option<T>], is [None]. *)
Definition required {A} (name : string) (slot : option A) : result A :=
  match slot with Some x => Ok x | None => Err (MissingField name) end.

Definition or_none {A} (slot : option (option A)) : option A :=
  match slot with Some x => x | None => None end.

(** *** [WebResource] *)

Inductive resource_field : Type :=
| FData | FURL | FFrameName | FMIMEType | FTextEncodingName | FResponse.

Definition resource_field_of_key (k : string) : option resource_field :=
  if String.eqb k "WebResourceData" then Some FData
  else if String.eqb k "WebResourceURL" then Some FURL
  else if String.eqb k "WebResourceFrameName" then Some FFrameName
  else if String.eqb k "WebResourceMIMEType" then Some FMIMEType
  else if String.eqb k "WebResourceTextEncodingName" then Some FTextEncodingName
  else if String.eqb k "WebResourceResponse" then Some FResponse
  else None.

Record resource_fields : Type := {
  r_data : option (list byte);
  r_url : option string;
  r_frame_name : option (option string);
  r_mime_type : option string;
  r_text_encoding_name : option (option string);
  r_response : option (option (list byte)) }.

Definition no_resource_fields : resource_fields :=
  {| r_data := None; r_url := None; r_frame_name := None; r_mime_type := None;
     r_text_encoding_name := None; r_response := None |}.

Definition resource_step (acc : resource_fields) (k : string) (v : plist)
    : result resource_fields :=
  let '{| r_data := d; r_url := u; r_frame_name := f; r_mime_type := m;
          r_text_encoding_name := t; r_response := p |} := acc in
  match resource_field_of_key k with
  | None => Err (UnknownField k)
  | Some FData =>
      d' <- fill "WebResourceData" d (de_byte_buf v) ;;
      Ok {| r_data := d'; r_url := u; r_frame_name := f; r_mime_type := m;
            r_text_encoding_name := t; r_response := p |}
  | Some FURL =>
      u' <- fill "WebResourceURL" u (de_string v) ;;
      Ok {| r_data := d; r_url := u'; r_frame_name := f; r_mime_type := m;
            r_text_encoding_name := t; r_response := p |}
  | Some FFrameName =>
      f' <- fill "WebResourceFrameName" f (empty_string_as_none v) ;;
      Ok {| r_data := d; r_url := u; r_frame_name := f'; r_mime_type := m;
            r_text_encoding_name := t; r_response := p |}
  | Some FMIMEType =>
      m' <- fill "WebResourceMIMEType" m (de_string v) ;;
      Ok {| r_data := d; r_url := u; r_frame_name := f; r_mime_type := m';
            r_text_encoding_name := t; r_response := p |}
  | Some FTextEncodingName =>
      t' <- fill "WebResourceTextEncodingName" t (empty_string_as_none v) ;;
      Ok {| r_data := d; r_url := u; r_frame_name := f; r_mime_type := m;
            r_text_encoding_name := t'; r_response := p |}
  | Some FResponse =>
      p' <- fill "WebResourceResponse" p (de_option de_byte_buf v) ;;
      Ok {| r_data := d; r_url := u; r_frame_name := f; r_mime_type := m;
            r_text_encoding_name := t; r_response := p' |}
  end.

Definition finish_resource (acc : resource_fields) : result WebResource :=
  d <- required "WebResourceData" (r_data acc) ;;
  u <- required "WebResourceURL" (r_url acc) ;;
  m <- required "WebResourceMIMEType" (r_mime_type acc) ;;
  Ok {| data := d; url := u; frame_name := or_none (r_frame_name acc);
        mime_type := m; text_encoding_name := or_none (r_text_encoding_name acc);
        response := or_none (r_response acc) |}.

Definition de_resource (v : plist) : result WebResource :=
  match v with
  | PDictionary es =>
      acc <- visit_entries resource_step no_resource_fields es ;; finish_resource acc
  | _ => Err InvalidType
  end.

(** *** [WebArchive] *)

Inductive archive_field : Type :=
| FMainResource | FSubresources | FSubframeArchives.

Definition archive_field_of_key (k : string) : option archive_field :=
  if String.eqb k "WebMainResource" then Some FMainResource
  else if String.eqb k "WebSubresources" then Some FSubresources
  else if String.eqb k "WebSubframeArchives" then Some FSubframeArchives
  else None.

Record archive_fields : Type := {
  a_main_resource : option WebResource;
  a_subresources : option (option (list WebResource));
  a_subframe_archives : option (option (list WebArchive)) }.

Definition no_archive_fields : archive_fields :=
  {| a_main_resource := None; a_subresources := None; a_subframe_archives := None |}.

Definition archive_step (de_archive : plist -> result WebArchive)
    (acc : archive_fields) (k : string) (v : plist) : result archive_fields :=
  let '{| a_main_resource := m; a_subresources := s; a_subframe_archives := f |} := acc in
  match archive_field_of_key k with
  | None => Err (UnknownField k)
  | Some FMainResource =>
      m' <- fill "WebMainResource" m (de_resource v) ;;
      Ok {| a_main_resource := m'; a_subresources := s; a_subframe_archives := f |}
  | Some FSubresources =>
      s' <- fill "WebSubresources" s (de_option (de_seq de_resource) v) ;;
      Ok {| a_main_resource := m; a_subresources := s'; a_subframe_archives := f |}
  | Some FSubframeArchives =>
      f' <- fill "WebSubframeArchives" f (de_option (de_seq de_archive) v) ;;
      Ok {| a_main_resource := m; a_subresources := s; a_subframe_archives := f' |}
  end.

Definition finish_archive (acc : archive_fields) : result WebArchive :=
  m <- required "WebMainResource" (a_main_resource acc) ;;
  Ok (mkWebArchive m (or_none (a_subresources acc)) (or_none (a_subframe_archives acc))).

(** [plist::from_bytes] / [from_file] at type [WebArchive], on the document. *)
Fixpoint de_archive (v : plist) : result WebArchive :=
  match v with
  | PDictionary es =>
      acc <- visit_entries (archive_step de_archive) no_archive_fields es ;;
      finish_archive acc
  | _ => Err InvalidType
  end.

(** ** Encoding ([Serialize] through plist's serializer)

    Fields are written in declaration order; serde_bytes writes [Vec<u8>] as
    plist data; a struct field whose value is [None] is not written at all. *)

Definition opt_entry {A} (k : string) (enc : A -> plist) (o : option A)
    : list (string * plist) :=
  match o with Some x => [(k, enc x)] | None => [] end.

Definition se_resource (r : WebResource) : plist :=
  PDictionary
    ([("WebResourceData", PData (data r)); ("WebResourceURL", PString (url r))]
     ++ opt_entry "WebResourceFrameName" PString (frame_name r)
     ++ [("WebResourceMIMEType", PString (mime_type r))]
     ++ opt_entry "WebResourceTextEncodingName" PString (text_encoding_name r)
     ++ opt_entry "WebResourceResponse" PData (response r)).

(** [to_writer_xml] / [to_writer_binary] at type [WebArchive], on the document. *)
Fixpoint se_archive (a : WebArchive) : plist :=
  match a with
  | mkWebArchive m s f =>
      PDictionary
        ([("WebMainResource", se_resource m)]
         ++ opt_entry "WebSubresources" (fun l => PArray (map se_resource l)) s
         ++ opt_entry "WebSubframeArchives" (fun l => PArray (map se_archive l)) f)
  end.

(** ** What a decode after an encode gives back: [empty_string_as_none]
    turns a written [Some("")] into [None]. *)

Definition empty_as_none (o : option string) : option string :=
  match o with Some EmptyString => None | o => o end.

Definition normalize_resource (r : WebResource) : WebResource :=
  {| data := data r; url := url r; frame_name := empty_as_none (frame_name r);
     mime_type := mime_type r;
     text_encoding_name := empty_as_none (text_encoding_name r);
     response := response r |}.

Fixpoint normalize_archive (a : WebArchive) : WebArchive :=
  match a with
  | mkWebArchive m s f =>
      mkWebArchive (normalize_resource m) (option_map (map normalize_resource) s)
        (option_map (map normalize_archive) f)
  end.

(** No [Some("")] in a text-encoding or frame-name field, at any depth. *)
Definition no_empty (o : option string) : bool :=
  match o with Some EmptyString => false | _ => true end.

Definition resource_no_empty (r : WebResource) : bool :=
  no_empty (frame_name r) && no_empty (text_encoding_name r).

Fixpoint archive_no_empty (a : WebArchive) : bool :=
  match a with
  | mkWebArchive m s f =>
      resource_no_empty m
      && match s with Some l => forallb resource_no_empty l | None => true end
      && match f with Some l => forallb archive_no_empty l | None => true end
  end.

(** ** Sample values *)

Definition hello : WebResource :=
  {| data := list_byte_of_string "hello world"; url := "about:hello";
     frame_name := None; mime_type := "text/plain";
     text_encoding_name := Some "utf-8"; response := None |}.

Definition hello_archive : WebArchive := mkWebArchive hello None None.

(** ** Inspection (lib.rs, [total_size] and [print_list])

    Sizes are [usize] in the source; every length summed is the length of a
    buffer resident in memory at the same time, so the sums stay below
    [usize::MAX] and are written over [nat]. *)

Definition list_or_nil {A} (o : option (list A)) : list A :=
  match o with Some l => l | None => [] end.

Fixpoint total_size (a : WebArchive) : nat :=
  match a with
  | mkWebArchive m s f =>
      let subresource_size :=
        match s with
        | Some subresources => list_sum (map (fun r => length (data r)) subresources)
        | None => 0
        end in
      let subframe_archive_size :=
        match f with
        | Some webarchives => list_sum (map total_size webarchives)
        | None => 0
        end in
      length (data m) + subresource_size + subframe_archive_size
  end.

(** One printed line of [print_list], as the values it formats. *)
Inductive list_line : Type :=
| ArchiveLine (url mime : string) (size subresource_count subframe_archive_count
                total : nat)
| SubresourceLine (url mime : string) (size : nat).

Fixpoint print_list (a : WebArchive) : list list_line :=
  match a with
  | mkWebArchive m s f =>
      let subresource_count := match s with Some l => length l | None => 0 end in
      let subframe_archive_count := match f with Some l => length l | None => 0 end in
      ArchiveLine (url m) (mime_type m) (length (data m)) subresource_count
        subframe_archive_count (total_size a)
      :: map (fun r => SubresourceLine (url r) (mime_type r) (length (data r)))
             (list_or_nil s)
      ++ match f with
         | Some webarchives => flat_map print_list webarchives
         | None => []
         end
  end.

(** ** Extraction (main.rs, [save] and [save_archive]) *)

(** [str::splitn(2, "//")]: the piece before the first ["//"] and the rest,
    or the whole string when there is no ["//"]. *)
Fixpoint split_once (s : string) : option (string * string) :=
  match s with
  | EmptyString => None
  | String c tl =>
      match tl with
      | EmptyString => None
      | String c' rest =>
          if Ascii.eqb c "/"%char && Ascii.eqb c' "/"%char then Some (EmptyString, rest)
          else match split_once tl with
               | Some (a, b) => Some (String c a, b)
               | None => None
               end
      end
  end.

Definition splitn2 (s : string) : list string :=
  match split_once s with
  | Some (a, b) => [a; b]
  | None => [s]
  end.

(** [Iterator::last]. *)
Fixpoint iter_last {A} (l : list A) : option A :=
  match l with
  | [] => None
  | [x] => Some x
  | _ :: l' => iter_last l'
  end.

(** [str::ends_with('/')] *)
Fixpoint ends_with_slash (s : string) : bool :=
  match s with
  | EmptyString => false
  | String c EmptyString => Ascii.eqb c "/"%char
  | String _ tl => ends_with_slash tl
  end.

Definition starts_with_slash (s : string) : bool :=
  match s with
  | String c _ => Ascii.eqb c "/"%char
  | EmptyString => false
  end.

(** [Path::join] on Unix ([PathBuf::push]): an absolute path replaces the
    base; otherwise a separator is added when the base is non-empty and does
    not end in one. *)
Definition path_join (base p : string) : string :=
  if starts_with_slash p then p
  else if String.eqb base "" || ends_with_slash base then base ++ p
  else base ++ "/" ++ p.

(** The ['/']-separated pieces of a string. *)
Fixpoint split_slash (s : string) : list string :=
  match s with
  | EmptyString => [EmptyString]
  | String c tl =>
      let r := split_slash tl in
      if Ascii.eqb c "/"%char then EmptyString :: r
      else match r with
           | seg :: rest => String c seg :: rest
           | [] => [String c EmptyString]
           end
  end.

(** [Path::parent] is [None] exactly when the path has no component but the
    root: every piece is empty or ["."], and it does not start with a
    [CurDir] component (a leading ["."]). *)
Definition parent_is_none (p : string) : bool :=
  let segs := split_slash p in
  forallb (fun seg => String.eqb seg "" || String.eqb seg ".") segs
  && negb (match segs with seg :: _ => String.eqb seg "." | [] => false end).

(** The MIME table of [mime_guess::get_mime_extensions_str] is an argument
    of the extractor: [None] for an unknown type, else the extensions in the
    table's order. *)
Definition mime_table : Type := string -> option (list string).

(** An excerpt of mime_guess's table, whose extension lists are in
    alphabetical order.  [image/png] has exactly the extensions ["png"] and
    ["pnz"]; for [text/html] and [text/plain] only some extensions are
    listed, in the table's order and always ending with the table's last
    one (["shtml"], ["xoml"]), the one [save] takes.  Any other type is
    answered [None] here. *)
Definition mime_guess_excerpt : mime_table :=
  fun m =>
    if String.eqb m "image/png" then Some ["png"; "pnz"]
    else if String.eqb m "text/html" then Some ["htm"; "html"; "shtml"]
    else if String.eqb m "text/plain" then Some ["bas"; "c"; "h"; "txt"; "xoml"]
    else None.

Section Extract.

Variable get_mime_extensions_str : mime_table.

Definition guessed_ext (mime : string) : option string :=
  match get_mime_extensions_str mime with
  | None => Some "txt"
  | Some mime_extensions => iter_last mime_extensions
  end.

(** The path [save] writes to; [None] when one of its [expect]s panics
    ("File should have a protocol", "MIME returned no extensions in a Some"). *)
Definition save_path (inside : string) (resource : WebResource) : option string :=
  match iter_last (splitn2 (url resource)) with
  | None => None
  | Some u =>
      if ends_with_slash u then
        match guessed_ext (mime_type resource) with
        | None => None
        | Some ext => Some (path_join inside (u ++ "_unnamed_index." ++ ext))
        end
      else Some (path_join inside u)
  end.

(** The file system: the files written so far, in order.  Whether
    [create_dir_all], [File::create] and [write_all] succeed for a path is up
    to the environment, which may depend on what has been written. *)
Definition written : Type := list (string * list byte).

Inductive io_error : Type := IoError (path : string).

Variable fs_error : written -> string -> option io_error.

Inductive outcome : Type :=
| Done
| Failed (e : io_error)
| Panicked (msg : string).

Definition save (resource : WebResource) (inside : string) (w : written)
    : outcome * written :=
  match save_path inside resource with
  | None => (Panicked "expect", w)
  | Some path =>
      if parent_is_none path then (Panicked "Could not get parent directory", w)
      else match fs_error w path with
           | Some e => (Failed e, w)
           | None => (Done, (w ++ [(path, data resource)])%list)
           end
  end.

(** [xs.into_iter().for_each(|x| f(x).expect(msg))] *)
Fixpoint for_each_expect {X} (f : X -> written -> outcome * written) (msg : string)
    (xs : list X) (w : written) : outcome * written :=
  match xs with
  | [] => (Done, w)
  | x :: xs' =>
      match f x w with
      | (Done, w') => for_each_expect f msg xs' w'
      | (Failed _, w') => (Panicked msg, w')
      | (Panicked m, w') => (Panicked m, w')
      end
  end.

Fixpoint save_archive (archive : WebArchive) (inside : string) (w : written)
    : outcome * written :=
  match archive with
  | mkWebArchive m s f =>
      match save m inside w with
      | (Done, w1) =>
          match match s with
                | Some subresources =>
                    for_each_expect (fun r => save r inside)
                      "Could not save subresource" subresources w1
                | None => (Done, w1)
                end with
          | (Done, w2) =>
              match f with
              | Some subframe_archives =>
                  for_each_expect (fun a => save_archive a inside)
                    "Could not save subframe_archive" subframe_archives w2
              | None => (Done, w2)
              end
          | stop => stop
          end
      | stop => stop
      end
  end.

(** The order the spec gives: main resource, subresources, then each subframe
    archive, depth first. *)
Fixpoint extraction_order (a : WebArchive) : list WebResource :=
  match a with
  | mkWebArchive m s f =>
      (m :: list_or_nil s
        ++ match f with Some l => flat_map extraction_order l | None => [] end)%list
  end.

(** Saving a list of resources one after the other, stopping at the first
    that does not succeed. *)
Fixpoint save_all (rs : list WebResource) (inside : string) (w : written)
    : bool * written :=
  match rs with
  | [] => (true, w)
  | r :: rs' =>
      match save r inside w with
      | (Done, w') => save_all rs' inside w'
      | (_, w') => (false, w')
      end
  end.

End Extract.

(** ** Predicates the properties below are stated with *)

(** A non-empty dictionary somewhere inside a value. *)
Fixpoint has_key (v : plist) : bool :=
  match v with
  | PArray items => existsb has_key items
  | PDictionary [] => false
  | PDictionary (_ :: _) => true
  | _ => false
  end.

(** A key outside the field set of the place it sits in: at a resource
    place, a key that is not a [WebResource] field (or any key inside one of
    its field values); at an archive place, a key that is not a [WebArchive]
    field, or a stray key in its main resource, in its subresources, or in its
    subframe archives, recursively. *)
Definition stray_in_resource (v : plist) : bool :=
  match v with
  | PDictionary es =>
      existsb (fun '(k, x) =>
                 match resource_field_of_key k with
                 | None => true
                 | Some _ => has_key x
                 end) es
  | _ => has_key v
  end.

Fixpoint stray_in_archive (v : plist) : bool :=
  match v with
  | PDictionary es =>
      existsb (fun '(k, x) =>
                 match archive_field_of_key k with
                 | None => true
                 | Some FMainResource => stray_in_resource x
                 | Some FSubresources =>
                     match x with
                     | PArray items => existsb stray_in_resource items
                     | _ => has_key x
                     end
                 | Some FSubframeArchives =>
                     match x with
                     | PArray items => existsb stray_in_archive items
                     | _ => has_key x
                     end
                 end) es
  | _ => has_key v
  end.

(** A value at a resource place of an archive document satisfies [bad]. *)
Fixpoint resource_place_with (bad : plist -> bool) (v : plist) : bool :=
  match v with
  | PDictionary es =>
      existsb (fun '(k, x) =>
                 match archive_field_of_key k with
                 | Some FMainResource => bad x
                 | Some FSubresources =>
                     match x with PArray items => existsb bad items | _ => false end
                 | Some FSubframeArchives =>
                     match x with
                     | PArray items => existsb (resource_place_with bad) items
                     | _ => false
                     end
                 | None => false
                 end) es
  | _ => false
  end.

(** A resource dictionary without a [WebResourceMIMEType] key. *)
Definition lacks_mime_type (v : plist) : bool :=
  match v with
  | PDictionary es => negb (existsb (String.eqb "WebResourceMIMEType") (map fst es))
  | _ => false
  end.

Definition top_keys (v : plist) : list string :=
  match v with PDictionary es => map fst es | _ => [] end.

(** Lexical containment of paths: the components of [p], with ["."]
    dropped and [".."] resolved, start with those of [base]. *)
Fixpoint resolve (stack : list string) (segs : list string) : list string :=
  match segs with
  | [] => rev stack
  | seg :: rest =>
      if String.eqb seg "" || String.eqb seg "." then resolve stack rest
      else if String.eqb seg ".." then
        match stack with
        | top :: st => if String.eqb top ".." then resolve (".." :: stack) rest
                       else resolve st rest
        | [] => resolve [".."] rest
        end
      else resolve (seg :: stack) rest
  end.

Fixpoint is_prefix (l1 l2 : list string) : bool :=
  match l1, l2 with
  | [], _ => true
  | x :: l1', y :: l2' => String.eqb x y && is_prefix l1' l2'
  | _ :: _, [] => false
  end.

Definition within (base p : string) : bool :=
  Bool.eqb (starts_with_slash base) (starts_with_slash p)
  && is_prefix (resolve [] (split_slash base)) (resolve [] (split_slash p)).

(** Updating the decoded result, and marking a frame-name or text-encoding
    slot of the accumulator as filled with [None]. *)
Definition map_res {A B} (f : A -> B) (r : result A) : result B :=
  match r with Ok a => Ok (f a) | Err e => Err e end.

Definition set_frame_name_absent (acc : resource_fields) : resource_fields :=
  {| r_data := r_data acc; r_url := r_url acc; r_frame_name := Some None;
     r_mime_type := r_mime_type acc; r_text_encoding_name := r_text_encoding_name acc;
     r_response := r_response acc |}.

Definition set_text_encoding_absent (acc : resource_fields) : resource_fields :=
  {| r_data := r_data acc; r_url := r_url acc; r_frame_name := r_frame_name acc;
     r_mime_type := r_mime_type acc; r_text_encoding_name := Some None;
     r_response := r_response acc |}.

(** Everything after the first ["//"] of a URL, or the whole URL when it
    has none: the spec's reading of the scheme-stripping step. *)
Definition after_first_dslash (s : string) : string :=
  match index 0 "//" s with
  | Some n => substring (n + 2) (String.length s - (n + 2)) s
  | None => s
  end.

(** A run of [save_archive] and a run of [save_all] end alike: both
    complete or both stop, with the same files written. *)
Definition agrees (p : outcome * written) (q : bool * written) : Prop :=
  (fst p = Done <-> fst q = true) /\ snd p = snd q.

(** ** The command line (main.rs, [main]) *)

(** [Path::parent] on Unix.  [Components] reads an optional root (a
    leading ['/']) or, for a relative path that is ["."] or starts with
    ["./"], a [CurDir] component; the rest is the body.  [next_back] skips
    trailing empty and ["."] pieces of the body and returns its last
    component; [as_path] then gives the path up to that component, trailing
    empty and ["."] pieces trimmed again.  With the body used up, the root
    gives [None], a [CurDir] gives [Some ""], and an empty path [None].  The
    functions below work on the body's characters in reverse. *)
Fixpoint trim_back (rb : list ascii) : list ascii :=
  match rb with
  | [] => []
  | c :: r =>
      if Ascii.eqb c "/" then trim_back r
      else if Ascii.eqb c "." then
        match r with
        | [] => []
        | c' :: r' => if Ascii.eqb c' "/" then trim_back r' else rb
        end
      else rb
  end.

(** The reversed body without its last component and the separator before it. *)
Fixpoint drop_component (rb : list ascii) : list ascii :=
  match rb with
  | [] => []
  | c :: r => if Ascii.eqb c "/" then r else drop_component r
  end.

Definition path_parent (p : string) : option string :=
  let cs := list_ascii_of_string p in
  let has_root := starts_with_slash p in
  let cur_dir := negb has_root
                 && match cs with
                    | [c] => Ascii.eqb c "."
                    | c :: c' :: _ => Ascii.eqb c "." && Ascii.eqb c' "/"
                    | [] => false
                    end in
  let pre := if has_root || cur_dir then firstn 1 cs else [] in
  let body := if has_root || cur_dir then skipn 1 cs else cs in
  match trim_back (rev body) with
  | [] => if cur_dir then Some "" else None
  | rb => Some (string_of_list_ascii (pre ++ rev (trim_back (drop_component rb))))
  end.

Inductive Args : Type :=
| Inspect (input : string)
| Extract (input : string) (output : option string).

(** [webarchive::from_file]: [load] reads the file and parses it into a
    plist document ([None] on an I/O or syntax error), which is then
    decoded as a [WebArchive]. *)
Definition from_file (load : string -> option plist) (input : string) : option WebArchive :=
  match load input with
  | Some v => match de_archive v with Ok a => Some a | Err _ => None end
  | None => None
  end.

(** How [main] ends: [Ok(())], an [anyhow] error with its context, or a
    panic raised inside [save_archive]. *)
Inductive main_error : Type :=
| FailedToRead (input : string)
| NoOutputDirectory
| SavingResources (e : io_error).

Inductive main_outcome : Type :=
| MainOk
| MainErr (e : main_error)
| MainPanic (msg : string).

(** [main] after [Args::parse]: the outcome, the lines [print_list] prints
    (Inspect), and the files written (Extract).  The extractor's progress
    messages are not part of the model. *)
Definition main (table : mime_table) (fs_error : written -> string -> option io_error)
    (load : string -> option plist) (args : Args) (w : written)
    : main_outcome * list list_line * written :=
  match args with
  | Inspect input =>
      match from_file load input with
      | None => (MainErr (FailedToRead input), [], w)
      | Some webarchive => (MainOk, print_list webarchive, w)
      end
  | Extract input output =>
      match from_file load input with
      | None => (MainErr (FailedToRead input), [], w)
      | Some webarchive =>
          match match output with
                | Some path => Some path
                | None => path_parent input
                end with
          | None => (MainErr NoOutputDirectory, [], w)
          | Some output =>
              match save_archive table fs_error webarchive output w with
              | (Done, w') => (MainOk, [], w')
              | (Failed e, w') => (MainErr (SavingResources e), [], w')
              | (Panicked msg, w') => (MainPanic msg, [], w')
              end
          end
      end
  end.

(** ** Further predicates *)

(** Whether a field's slot of the [WebResource] (resp. [WebArchive])
    accumulator has been filled. *)
Definition resource_slot_filled (acc : resource_fields) (fld : resource_field) : bool :=
  match fld with
  | FData => if r_data acc then true else false
  | FURL => if r_url acc then true else false
  | FFrameName => if r_frame_name acc then true else false
  | FMIMEType => if r_mime_type acc then true else false
  | FTextEncodingName => if r_text_encoding_name acc then true else false
  | FResponse => if r_response acc then true else false
  end.

Definition archive_slot_filled (acc : archive_fields) (fld : archive_field) : bool :=
  match fld with
  | FMainResource => if a_main_resource acc then true else false
  | FSubresources => if a_subresources acc then true else false
  | FSubframeArchives => if a_subframe_archives acc then true else false
  end.

(** A dictionary without the key [k]. *)
Definition lacks_key (k : string) (v : plist) : bool :=
  match v with
  | PDictionary es => negb (existsb (String.eqb k) (map fst es))
  | _ => false
  end.

(** URL, MIME type and size of a line of [print_list]. *)
Definition line_entry (l : list_line) : string * string * nat :=
  match l with
  | ArchiveLine u m size _ _ _ => (u, m, size)
  | SubresourceLine u m size => (u, m, size)
  end.

(** The files a list of resources is written to, each with its data, in order. *)
Definition planned_writes (table : mime_table) (inside : string) (rs : list WebResource)
    : written :=
  flat_map (fun r => match save_path table inside r with
                     | Some p => [(p, data r)]
                     | None => []
                     end) rs.

(** A decoder run that ends in an error, and the length of a resource's data. *)
Definition fails {A} (r : result A) : Prop := exists e, r = Err e.

Definition data_length (r : WebResource) : nat := length (data r).

(** ** Sample values and runs *)

Definition res_at (u m : string) (d : list byte) : WebResource :=
  {| data := d; url := u; frame_name := None; mime_type := m;
     text_encoding_name := None; response := None |}.

Definition frame_doc : WebResource :=
  {| data := list_byte_of_string "<p>frame</p>"; url := "http://example.com/frame.html";
     frame_name := Some "left"; mime_type := "text/html";
     text_encoding_name := Some "UTF-8";
     response := Some (list_byte_of_string "bplist00") |}.

Definition nested_archive : WebArchive :=
  mkWebArchive hello
    (Some [res_at "http://example.com/a.png" "image/png" [x89; x50];
           res_at "http://example.com/b.css" "text/css" []])
    (Some [mkWebArchive frame_doc None (Some []); hello_archive]).

Example hello_archive_doc :
  se_archive hello_archive =
  PDictionary [("WebMainResource",
    PDictionary [("WebResourceData", PData (list_byte_of_string "hello world"));
                 ("WebResourceURL", PString "about:hello");
                 ("WebResourceMIMEType", PString "text/plain");
                 ("WebResourceTextEncodingName", PString "utf-8")])].
Proof. reflexivity. Qed.

Example hello_archive_back : de_archive (se_archive hello_archive) = Ok hello_archive.
Proof. vm_compute. reflexivity. Qed.

Example crouton_index_path :
  save_path mime_guess_excerpt "/tmp" (res_at "https://crouton.net/" "text/html" [])
  = Some "/tmp/crouton.net/_unnamed_index.shtml".
Proof. reflexivity. Qed.

Example crouton_png_path :
  save_path mime_guess_excerpt "/tmp" (res_at "https://crouton.net/crouton.png" "image/png" [])
  = Some "/tmp/crouton.net/crouton.png".
Proof. reflexivity. Qed.

Example crouton_list :
  print_list (mkWebArchive (res_at "https://crouton.net/" "text/html" (repeat x00 134))
                (Some [res_at "https://crouton.net/crouton.png" "image/png" (repeat x00 5182)])
                None)
  = [ArchiveLine "https://crouton.net/" "text/html" 134 1 0 5316;
     SubresourceLine "https://crouton.net/crouton.png" "image/png" 5182].
Proof. reflexivity. Qed.

Example no_protocol_path :
  save_path mime_guess_excerpt "out" (res_at "about:hello" "text/plain" [])
  = Some "out/about:hello".
Proof. reflexivity. Qed.

Example parent_none_samples :
  map parent_is_none ["/"; ""; "/."; "."; "a"; "/a"; "a/"] =
  [true; true; true; false; false; false; false].
Proof. reflexivity. Qed.

Example within_samples :
  map (within "out") ["out/a"; "out/a/../b"; "out/../x"; "/etc/x"; "out/../../etc/passwd"]
  = [true; true; false; false; false].
Proof. reflexivity. Qed.

(** ** Induction over the nested types *)

Section WebArchiveInd.
Variable P : WebArchive -> Prop.
Hypothesis Hmk : forall m s f,
  match f with Some l => Forall P l | None => True end -> P (mkWebArchive m s f).

Fixpoint webarchive_ind' (a : WebArchive) : P a :=
  match a with
  | mkWebArchive m s f =>
      Hmk m s f
        (match f as f0 return match f0 with Some l => Forall P l | None => True end with
         | Some l =>
             (fix go (l : list WebArchive) : Forall P l :=
                match l with
                | [] => Forall_nil P
                | x :: l' => Forall_cons x (webarchive_ind' x) (go l')
                end) l
         | None => I
         end)
  end.
End WebArchiveInd.

Section PlistInd.
Variable P : plist -> Prop.
Hypothesis HArray : forall items, Forall P items -> P (PArray items).
Hypothesis HDict : forall es, Forall (fun e => P (snd e)) es -> P (PDictionary es).
Hypothesis HBoolean : forall b, P (PBoolean b).
Hypothesis HData : forall b, P (PData b).
Hypothesis HDate : forall d, P (PDate d).
Hypothesis HReal : forall r, P (PReal r).
Hypothesis HInteger : forall z, P (PInteger z).
Hypothesis HString : forall s, P (PString s).
Hypothesis HUid : forall u, P (PUid u).

Fixpoint plist_ind' (v : plist) : P v :=
  match v with
  | PArray items =>
      HArray items
        ((fix go (l : list plist) : Forall P l :=
            match l with
            | [] => Forall_nil P
            | x :: l' => Forall_cons x (plist_ind' x) (go l')
            end) items)
  | PDictionary es =>
      HDict es
        ((fix go (l : list (string * plist)) : Forall (fun e => P (snd e)) l :=
            match l with
            | [] => Forall_nil _
            | (k, x) :: l' => @Forall_cons _ (fun e => P (snd e)) (k, x) l' (plist_ind' x) (go l')
            end) es)
  | PBoolean b => HBoolean b
  | PData b => HData b
  | PDate d => HDate d
  | PReal r => HReal r
  | PInteger z => HInteger z
  | PString s => HString s
  | PUid u => HUid u
  end.
End PlistInd.

(** ** Decoding what was encoded *)

Lemma de_resource_se (r : WebResource) :
  de_resource (se_resource r) = Ok (normalize_resource r).
Proof.
  destruct r as [d u f m t p].
  destruct f as [[|c f]|], t as [[|c' t]|], p; reflexivity.
Qed.

Lemma map_result_de_resource (l : list WebResource) :
  map_result de_resource (map se_resource l) = Ok (map normalize_resource l).
Proof.
  induction l as [|r l IH]; [reflexivity|].
  cbn [map map_result]. rewrite de_resource_se, IH. reflexivity.
Qed.

Lemma de_archive_se (a : WebArchive) :
  de_archive (se_archive a) = Ok (normalize_archive a).
Proof.
  induction a as [m s f IH] using webarchive_ind'.
  destruct f as [l|].
  - assert (Hf : map_result de_archive (map se_archive l) = Ok (map normalize_archive l)).
    { induction IH as [|x l Hx _ IHl]; [reflexivity|].
      cbn [map map_result]. rewrite Hx, IHl. reflexivity. }
    destruct s as [subs|]; cbn [se_archive opt_entry app de_archive visit_entries];
      unfold archive_step, de_option, de_seq, fill;
      rewrite ?de_resource_se, ?map_result_de_resource, Hf; reflexivity.
  - destruct s as [subs|]; cbn [se_archive opt_entry app de_archive visit_entries];
      unfold archive_step, de_option, de_seq, fill;
      rewrite ?de_resource_se, ?map_result_de_resource; reflexivity.
Qed.

Lemma empty_as_none_id (o : option string) : no_empty o = true -> empty_as_none o = o.
Proof. destruct o as [[|c o]|]; simpl; congruence. Qed.

Lemma normalize_resource_id (r : WebResource) :
  resource_no_empty r = true -> normalize_resource r = r.
Proof.
  destruct r as [d u f m t p]; unfold resource_no_empty; simpl.
  intros H; apply andb_true_iff in H as [Hf Ht].
  unfold normalize_resource; simpl.
  rewrite (empty_as_none_id f Hf), (empty_as_none_id t Ht). reflexivity.
Qed.

Lemma normalize_archive_id (a : WebArchive) :
  archive_no_empty a = true -> normalize_archive a = a.
Proof.
  induction a as [m s f IH] using webarchive_ind'.
  simpl. intros H. apply andb_true_iff in H as [H Hf].
  apply andb_true_iff in H as [Hm Hs].
  rewrite (normalize_resource_id m Hm). f_equal.
  - destruct s as [l|]; [|reflexivity]. simpl. f_equal.
    induction l as [|r l IHl]; [reflexivity|].
    simpl in Hs. apply andb_true_iff in Hs as [Hr Hs].
    simpl. rewrite (normalize_resource_id r Hr), (IHl Hs). reflexivity.
  - destruct f as [l|]; [|reflexivity]. simpl. f_equal.
    induction IH as [|x l Hx _ IHl]; [reflexivity|].
    simpl in Hf. apply andb_true_iff in Hf as [Hx' Hf].
    simpl. rewrite (Hx Hx'), (IHl Hf). reflexivity.
Qed.

(** ** C1: the round-trip law *)

(** C1, the claim as stated fails: an archive whose main resource has
    [text_encoding_name = Some("")] is written with an empty
    [WebResourceTextEncodingName] string, which [empty_string_as_none]
    reads back as [None]: decoding the encoding does not give the archive
    back. *)
Lemma roundtrip_counterexample :
  let r := {| data := []; url := "about:blank"; frame_name := None;
              mime_type := "text/plain"; text_encoding_name := Some "";
              response := None |} in
  let a := mkWebArchive r None None in
  de_archive (se_archive a) <> Ok a
  /\ de_archive (se_archive a)
     = Ok (mkWebArchive {| data := []; url := "about:blank"; frame_name := None;
                           mime_type := "text/plain"; text_encoding_name := None;
                           response := None |} None None).
Proof. split; [discriminate | reflexivity]. Qed.

(** C1 (amended): for every archive in which no [frame_name] and no
    [text_encoding_name], at any depth, is [Some("")], decoding the plist
    document the archive is encoded to gives the same archive back, nested
    subframe archives and the order of both lists included.  (The XML and
    binary writers of the plist crate both carry this same document.) *)
Theorem roundtrip_without_empty_strings (a : WebArchive) :
  archive_no_empty a = true -> de_archive (se_archive a) = Ok a.
Proof.
  intros H. rewrite de_archive_se, (normalize_archive_id a H). reflexivity.
Qed.

Lemma roundtrip_witness :
  archive_no_empty nested_archive = true
  /\ de_archive (se_archive nested_archive) = Ok nested_archive.
Proof.
  split; [reflexivity|].
  apply roundtrip_without_empty_strings. reflexivity.
Defined.

(** ** C7: an absent optional list is not written, and reads back absent *)

(** C7: encoding an archive whose [subresources] is [None] writes no
    [WebSubresources] key, and decoding that document gives
    [subresources = None]; the same holds for [subframe_archives] and
    [WebSubframeArchives]. *)
Theorem optional_list_omission (m : WebResource) (s : option (list WebResource))
    (f : option (list WebArchive)) :
  ~ In "WebSubresources" (top_keys (se_archive (mkWebArchive m None f)))
  /\ (exists a', de_archive (se_archive (mkWebArchive m None f)) = Ok a'
                 /\ subresources a' = None)
  /\ ~ In "WebSubframeArchives" (top_keys (se_archive (mkWebArchive m s None)))
  /\ (exists a', de_archive (se_archive (mkWebArchive m s None)) = Ok a'
                 /\ subframe_archives a' = None).
Proof.
  split; [|split; [|split]].
  - destruct f; cbn; intuition discriminate.
  - eexists; split; [apply de_archive_se | reflexivity].
  - destruct s; cbn; intuition discriminate.
  - eexists; split; [apply de_archive_se | reflexivity].
Qed.

(** ** Failure propagation in the decoders *)

Lemma map_result_fails {A B} (f : A -> result B) (l : list A) (x : A) :
  In x l -> fails (f x) -> fails (map_result f l).
Proof.
  intros Hin [e He]. induction l as [|y l IH]; [destruct Hin|].
  destruct Hin as [<-|Hin]; simpl.
  - rewrite He. eexists; reflexivity.
  - destruct (f y) as [b|e']; [|eexists; reflexivity].
    destruct (IH Hin) as [e'' ->]. eexists; reflexivity.
Qed.

Lemma visit_entries_fails {Acc} (step : Acc -> string -> plist -> result Acc)
    (acc : Acc) (es : list (string * plist)) (k : string) (x : plist) :
  In (k, x) es -> (forall acc', fails (step acc' k x)) ->
  fails (visit_entries step acc es).
Proof.
  intros Hin Hstep. revert acc.
  induction es as [|[k' x'] es IH]; intros acc; [destruct Hin|].
  destruct Hin as [Heq|Hin]; simpl.
  - inversion Heq; subst. destruct (Hstep acc) as [e ->]. eexists; reflexivity.
  - destruct (step acc k' x') as [acc'|e]; [apply IH; exact Hin|eexists; reflexivity].
Qed.

Lemma fill_fails {A} (name : string) (slot : option A) (de : result A) :
  fails de -> fails (fill name slot de).
Proof.
  intros [e He]. unfold fill. destruct slot; [eexists; reflexivity|].
  rewrite He. eexists; reflexivity.
Qed.

Lemma existsb_pair {A B} (p : A -> B -> bool) (l : list (A * B)) :
  existsb (fun '(a, b) => p a b) l = true -> exists a b, In (a, b) l /\ p a b = true.
Proof.
  intros H. apply existsb_exists in H as [[a b] [Hin Hp]]. eauto.
Qed.

Lemma has_key_shape (v : plist) :
  has_key v = true -> (exists items, v = PArray items) \/ (exists es, v = PDictionary es).
Proof. destruct v; simpl; try discriminate; eauto. Qed.

Lemma de_string_has_key (v : plist) : has_key v = true -> fails (de_string v).
Proof.
  intros H. destruct (has_key_shape v H) as [[items ->]|[es ->]]; eexists; reflexivity.
Qed.

Lemma de_u8_has_key (v : plist) : has_key v = true -> fails (de_u8 v).
Proof.
  intros H. destruct (has_key_shape v H) as [[items ->]|[es ->]]; eexists; reflexivity.
Qed.

Lemma de_byte_buf_has_key (v : plist) : has_key v = true -> fails (de_byte_buf v).
Proof.
  intros H. destruct (has_key_shape v H) as [[items ->]|[es ->]];
    [|eexists; reflexivity].
  simpl in H. apply existsb_exists in H as [x [Hin Hx]].
  apply (map_result_fails _ _ x Hin), de_u8_has_key, Hx.
Qed.

Lemma de_option_fails {A} (de : plist -> result A) (v : plist) :
  fails (de v) -> fails (de_option de v).
Proof. intros [e He]. unfold de_option. rewrite He. eexists; reflexivity. Qed.

Lemma empty_string_as_none_fails (v : plist) :
  fails (de_string v) -> fails (empty_string_as_none v).
Proof. intros [e He]. unfold empty_string_as_none, de_option. rewrite He. eexists; reflexivity. Qed.

Lemma resource_step_has_key (acc : resource_fields) (k : string) (x : plist) :
  match resource_field_of_key k with None => true | Some _ => has_key x end = true ->
  fails (resource_step acc k x).
Proof.
  intros H. destruct acc as [d u f m t p]. unfold resource_step.
  destruct (resource_field_of_key k) as [fld|]; [|eexists; reflexivity].
  destruct fld;
    match goal with
    | |- fails (match fill ?n ?s ?de with _ => _ end) =>
        assert (Hf : fails (fill n s de)) by
          (apply fill_fails;
           first [ apply de_byte_buf_has_key, H
                 | apply de_string_has_key, H
                 | apply empty_string_as_none_fails, de_string_has_key, H
                 | apply de_option_fails, de_byte_buf_has_key, H ]);
        destruct Hf as [e ->]; eexists; reflexivity
    end.
Qed.

Lemma de_resource_stray (v : plist) : stray_in_resource v = true -> fails (de_resource v).
Proof.
  intros H. destruct v; try (eexists; reflexivity).
  simpl in H. apply existsb_pair in H as [k [x [Hin Hkx]]].
  simpl. destruct (visit_entries_fails resource_step no_resource_fields entries k x Hin
                     (fun acc => resource_step_has_key acc k x Hkx)) as [e ->].
  eexists; reflexivity.
Qed.

(** ** C2: strict schema *)

(** C2: a document with a key outside the field set of the place it sits
    in (a [WebArchive] dictionary, a [WebResource] dictionary, or a value
    that is no struct at all), at any depth, does not decode to an archive:
    decoding fails with a schema error. *)
Theorem strict_schema_rejection (v : plist) :
  stray_in_archive v = true -> exists e, de_archive v = Err e.
Proof.
  enough (Hall : forall v,
            (stray_in_archive v = true -> fails (de_archive v))
            /\ (forall items, v = PArray items ->
                  Forall (fun i => stray_in_archive i = true -> fails (de_archive i)) items))
    by apply Hall.
  clear v. intros v.
  induction v as [items IH|es IH| | | | | | |] using plist_ind';
    (split; [intros Hs|intros items' Heq]); try discriminate;
    try (eexists; reflexivity).
  - injection Heq as <-. eapply Forall_impl; [|exact IH]. intros i [Hi _]; exact Hi.
  - simpl in Hs. apply existsb_pair in Hs as [k [x [Hin Hkx]]].
    rewrite Forall_forall in IH. destruct (IH (k, x) Hin) as [_ Hitems]. simpl in Hitems.
    assert (Hstep : forall acc, fails (archive_step de_archive acc k x)).
    { intros [m s f]. unfold archive_step.
      destruct (archive_field_of_key k) as [fld|]; [|eexists; reflexivity].
      destruct fld.
      - destruct (fill_fails "WebMainResource" m _ (de_resource_stray x Hkx)) as [e ->].
        eexists; reflexivity.
      - assert (Hx : fails (de_option (de_seq de_resource) x)).
        { apply de_option_fails. unfold de_seq.
          destruct x; simpl in Hkx; try discriminate; try (eexists; reflexivity).
          apply existsb_exists in Hkx as [i [Hi Hsi]].
          apply (map_result_fails _ _ i Hi), de_resource_stray, Hsi. }
        destruct (fill_fails "WebSubresources" s _ Hx) as [e ->]. eexists; reflexivity.
      - assert (Hx : fails (de_option (de_seq de_archive) x)).
        { apply de_option_fails. unfold de_seq.
          destruct x; simpl in Hkx; try discriminate; try (eexists; reflexivity).
          apply existsb_exists in Hkx as [i [Hi Hsi]].
          specialize (Hitems _ eq_refl). rewrite Forall_forall in Hitems.
          apply (map_result_fails _ _ i Hi), (Hitems i Hi), Hsi. }
        destruct (fill_fails "WebSubframeArchives" f _ Hx) as [e ->]. eexists; reflexivity. }
    simpl. destruct (visit_entries_fails _ no_archive_fields es k x Hin Hstep) as [e ->].
    eexists; reflexivity.
Qed.

(** C2 at a sample document: the hello archive with an extra top-level
    key [Extra]. *)
Lemma strict_schema_rejection_witness :
  stray_in_archive (PDictionary [("WebMainResource", se_resource hello);
                                 ("Extra", PString "x")]) = true
  /\ exists e, de_archive (PDictionary [("WebMainResource", se_resource hello);
                                       ("Extra", PString "x")]) = Err e.
Proof.
  split; [reflexivity|].
  apply strict_schema_rejection. reflexivity.
Defined.

(** ** C9: [WebResourceMIMEType] is required *)

Lemma resource_field_of_key_inv (k : string) (fld : resource_field) :
  resource_field_of_key k = Some fld ->
  k = match fld with
      | FData => "WebResourceData" | FURL => "WebResourceURL"
      | FFrameName => "WebResourceFrameName" | FMIMEType => "WebResourceMIMEType"
      | FTextEncodingName => "WebResourceTextEncodingName"
      | FResponse => "WebResourceResponse"
      end.
Proof.
  unfold resource_field_of_key.
  repeat match goal with
         | |- context [String.eqb ?a ?b] => destruct (String.eqb_spec a b)
         end; intros H; inversion H; subst; reflexivity.
Qed.

Lemma visit_resource_keeps_mime (es : list (string * plist)) (acc acc' : resource_fields) :
  existsb (String.eqb "WebResourceMIMEType") (map fst es) = false ->
  visit_entries resource_step acc es = Ok acc' -> r_mime_type acc' = r_mime_type acc.
Proof.
  revert acc. induction es as [|[k x] es IH]; intros acc Hk Hv.
  - inversion Hv; reflexivity.
  - simpl in Hk. apply orb_false_iff in Hk as [Hk Hrest].
    simpl in Hv. destruct (resource_step acc k x) as [acc1|e] eqn:Hs; [|discriminate].
    rewrite (IH acc1 Hrest Hv).
    destruct acc as [d u f m t p]. unfold resource_step in Hs.
    destruct (resource_field_of_key k) as [fld|] eqn:Hfld; [|discriminate].
    destruct fld;
      try (apply resource_field_of_key_inv in Hfld; subst k; discriminate);
      destruct (fill _ _ _); inversion Hs; reflexivity.
Qed.

Lemma de_resource_lacks_mime (v : plist) : lacks_mime_type v = true -> fails (de_resource v).
Proof.
  intros H. destruct v; try discriminate. unfold lacks_mime_type in H.
  apply negb_true_iff in H.
  simpl. destruct (visit_entries resource_step no_resource_fields entries) as [acc|e] eqn:Hv;
    [|eexists; reflexivity].
  pose proof (visit_resource_keeps_mime _ _ _ H Hv) as Hm. simpl in Hm.
  unfold finish_resource. rewrite Hm.
  destruct (required "WebResourceData" (r_data acc)),
    (required "WebResourceURL" (r_url acc)); eexists; reflexivity.
Qed.

(** A resource that fails to decode at a resource place makes the whole
    archive fail to decode. *)
Lemma de_archive_resource_place (bad : plist -> bool) :
  (forall x, bad x = true -> fails (de_resource x)) ->
  forall v, resource_place_with bad v = true -> fails (de_archive v).
Proof.
  intros Hbad v.
  enough (Hall : forall v,
            (resource_place_with bad v = true -> fails (de_archive v))
            /\ (forall items, v = PArray items ->
                  Forall (fun i => resource_place_with bad i = true -> fails (de_archive i)) items))
    by apply Hall.
  clear v. intros v.
  induction v as [items IH|es IH| | | | | | |] using plist_ind';
    (split; [intros Hs|intros items' Heq]); try discriminate.
  - injection Heq as <-. eapply Forall_impl; [|exact IH]. intros i [Hi _]; exact Hi.
  - simpl in Hs. apply existsb_pair in Hs as [k [x [Hin Hkx]]].
    rewrite Forall_forall in IH. destruct (IH (k, x) Hin) as [_ Hitems]. simpl in Hitems.
    assert (Hstep : forall acc, fails (archive_step de_archive acc k x)).
    { intros [m s f]. unfold archive_step.
      destruct (archive_field_of_key k) as [fld|]; [|discriminate].
      destruct fld.
      - destruct (fill_fails "WebMainResource" m _ (Hbad x Hkx)) as [e ->].
        eexists; reflexivity.
      - assert (Hx : fails (de_option (de_seq de_resource) x)).
        { apply de_option_fails. unfold de_seq.
          destruct x; simpl in Hkx; try discriminate.
          apply existsb_exists in Hkx as [i [Hi Hsi]].
          apply (map_result_fails _ _ i Hi), Hbad, Hsi. }
        destruct (fill_fails "WebSubresources" s _ Hx) as [e ->]. eexists; reflexivity.
      - assert (Hx : fails (de_option (de_seq de_archive) x)).
        { apply de_option_fails. unfold de_seq.
          destruct x; simpl in Hkx; try discriminate.
          apply existsb_exists in Hkx as [i [Hi Hsi]].
          specialize (Hitems _ eq_refl). rewrite Forall_forall in Hitems.
          apply (map_result_fails _ _ i Hi), (Hitems i Hi), Hsi. }
        destruct (fill_fails "WebSubframeArchives" f _ Hx) as [e ->]. eexists; reflexivity. }
    simpl. destruct (visit_entries_fails _ no_archive_fields es k x Hin Hstep) as [e ->].
    eexists; reflexivity.
Qed.

(** C9: [mime_type] is required: a resource dictionary without a
    [WebResourceMIMEType] key, at any resource place of an archive document,
    makes decoding fail, and no archive is produced. *)
Theorem mime_type_required (v : plist) :
  resource_place_with lacks_mime_type v = true -> exists e, de_archive v = Err e.
Proof. apply de_archive_resource_place, de_resource_lacks_mime. Qed.

(** C9 at a sample document: a main resource with data and URL only. *)
Lemma mime_type_required_witness :
  resource_place_with lacks_mime_type
    (PDictionary [("WebMainResource", PDictionary [("WebResourceData", PData []);
                                                   ("WebResourceURL", PString "u")])]) = true
  /\ exists e, de_archive
    (PDictionary [("WebMainResource", PDictionary [("WebResourceData", PData []);
                                                   ("WebResourceURL", PString "u")])]) = Err e.
Proof.
  split; [reflexivity|].
  apply mime_type_required. reflexivity.
Defined.

(** ** C3: an empty frame name or text encoding reads as absent *)

Lemma visit_entries_app {Acc} (step : Acc -> string -> plist -> result Acc)
    (acc : Acc) (es1 es2 : list (string * plist)) :
  visit_entries step acc (es1 ++ es2)
  = (acc1 <- visit_entries step acc es1 ;; visit_entries step acc1 es2).
Proof.
  revert acc. induction es1 as [|[k x] es1 IH]; intros acc; [reflexivity|].
  simpl. destruct (step acc k x); [apply IH|reflexivity].
Qed.

Section SlotIndependence.
Context {Acc : Type} (step : Acc -> string -> plist -> result Acc).
Variable (K : string) (set : Acc -> Acc).
Hypothesis step_set : forall acc k x, k <> K -> step (set acc) k x = map_res set (step acc k x).

Lemma visit_entries_set (es : list (string * plist)) (acc : Acc) :
  ~ In K (map fst es) ->
  visit_entries step (set acc) es = map_res set (visit_entries step acc es).
Proof.
  revert acc. induction es as [|[k x] es IH]; intros acc Hk; [reflexivity|].
  simpl in Hk |- *. rewrite step_set by (intros ->; apply Hk; left; reflexivity).
  destruct (step acc k x) as [acc1|e]; simpl; [|reflexivity].
  apply IH. intros H; apply Hk; right; exact H.
Qed.
End SlotIndependence.

Section SlotPreservation.
Context {Acc B : Type} (step : Acc -> string -> plist -> result Acc).
Variable (K : string) (get : Acc -> B).
Hypothesis step_get : forall acc k x acc', k <> K -> step acc k x = Ok acc' -> get acc' = get acc.

Lemma visit_entries_get (es : list (string * plist)) (acc acc' : Acc) :
  ~ In K (map fst es) -> visit_entries step acc es = Ok acc' -> get acc' = get acc.
Proof.
  revert acc. induction es as [|[k x] es IH]; intros acc Hk Hv.
  - inversion Hv; reflexivity.
  - simpl in Hk, Hv. destruct (step acc k x) as [acc1|e] eqn:Hs; [|discriminate].
    rewrite (IH acc1 (fun H => Hk (or_intror H)) Hv).
    apply (step_get acc k x); [intros ->; apply Hk; left; reflexivity|exact Hs].
Qed.
End SlotPreservation.

Lemma step_set_frame_name (acc : resource_fields) k x :
  k <> "WebResourceFrameName" ->
  resource_step (set_frame_name_absent acc) k x
  = map_res set_frame_name_absent (resource_step acc k x).
Proof.
  intros Hk. destruct acc; unfold resource_step, set_frame_name_absent; simpl.
  destruct (resource_field_of_key k) as [[]|] eqn:Hfld;
    try (apply resource_field_of_key_inv in Hfld; contradiction);
    try reflexivity; match goal with |- context [fill ?n ?s ?d] => destruct (fill n s d) end;
    reflexivity.
Qed.

Lemma step_set_text_encoding (acc : resource_fields) k x :
  k <> "WebResourceTextEncodingName" ->
  resource_step (set_text_encoding_absent acc) k x
  = map_res set_text_encoding_absent (resource_step acc k x).
Proof.
  intros Hk. destruct acc; unfold resource_step, set_text_encoding_absent; simpl.
  destruct (resource_field_of_key k) as [[]|] eqn:Hfld;
    try (apply resource_field_of_key_inv in Hfld; contradiction);
    try reflexivity; match goal with |- context [fill ?n ?s ?d] => destruct (fill n s d) end;
    reflexivity.
Qed.

Lemma step_keeps_frame_name (acc : resource_fields) k x acc' :
  k <> "WebResourceFrameName" -> resource_step acc k x = Ok acc' ->
  r_frame_name acc' = r_frame_name acc.
Proof.
  intros Hk Hs. destruct acc; unfold resource_step in Hs.
  destruct (resource_field_of_key k) as [[]|] eqn:Hfld;
    try (apply resource_field_of_key_inv in Hfld; contradiction); try discriminate;
    match type of Hs with context [fill ?n ?s ?d] => destruct (fill n s d) end;
    inversion Hs; reflexivity.
Qed.

Lemma step_keeps_text_encoding (acc : resource_fields) k x acc' :
  k <> "WebResourceTextEncodingName" -> resource_step acc k x = Ok acc' ->
  r_text_encoding_name acc' = r_text_encoding_name acc.
Proof.
  intros Hk Hs. destruct acc; unfold resource_step in Hs.
  destruct (resource_field_of_key k) as [[]|] eqn:Hfld;
    try (apply resource_field_of_key_inv in Hfld; contradiction); try discriminate;
    match type of Hs with context [fill ?n ?s ?d] => destruct (fill n s d) end;
    inversion Hs; reflexivity.
Qed.

Lemma step_frame_name_empty (acc : resource_fields) :
  r_frame_name acc = None ->
  resource_step acc "WebResourceFrameName" (PString "") = Ok (set_frame_name_absent acc).
Proof. destruct acc; simpl; intros ->; reflexivity. Qed.

Lemma step_text_encoding_empty (acc : resource_fields) :
  r_text_encoding_name acc = None ->
  resource_step acc "WebResourceTextEncodingName" (PString "")
  = Ok (set_text_encoding_absent acc).
Proof. destruct acc; simpl; intros ->; reflexivity. Qed.

(** C3: in a resource dictionary, a [WebResourceFrameName] (resp.
    [WebResourceTextEncodingName]) key whose value is the empty string
    decodes exactly as if the key were absent: decoding succeeds whenever
    the other entries decode, and the field is [None], not [Some("")]. *)
Theorem empty_string_reads_as_absent :
  (forall es1 es2,
     ~ In "WebResourceFrameName" (map fst (es1 ++ es2)) ->
     de_resource (PDictionary (es1 ++ ("WebResourceFrameName", PString "") :: es2))
     = de_resource (PDictionary (es1 ++ es2))
     /\ forall r,
          de_resource (PDictionary (es1 ++ ("WebResourceFrameName", PString "") :: es2))
          = Ok r -> frame_name r = None)
  /\ (forall es1 es2,
     ~ In "WebResourceTextEncodingName" (map fst (es1 ++ es2)) ->
     de_resource (PDictionary (es1 ++ ("WebResourceTextEncodingName", PString "") :: es2))
     = de_resource (PDictionary (es1 ++ es2))
     /\ forall r,
          de_resource (PDictionary (es1 ++ ("WebResourceTextEncodingName", PString "") :: es2))
          = Ok r -> text_encoding_name r = None).
Proof.
  split; intros es1 es2 Hk; rewrite map_app, in_app_iff in Hk;
    apply Decidable.not_or in Hk as [Hk1 Hk2];
    unfold de_resource; rewrite !visit_entries_app;
    (destruct (visit_entries resource_step no_resource_fields es1) as [acc1|e] eqn:H1;
     [|split; [reflexivity|discriminate]]).
  - assert (Hs1 : r_frame_name acc1 = None).
    { exact (visit_entries_get _ _ r_frame_name step_keeps_frame_name es1 _ _ Hk1 H1). }
    simpl. rewrite (step_frame_name_empty acc1 Hs1).
    rewrite (visit_entries_set _ _ _ step_set_frame_name es2 acc1 Hk2).
    destruct (visit_entries resource_step acc1 es2) as [acc2|e] eqn:H2;
      [|split; [reflexivity|discriminate]].
    assert (Hs2 : r_frame_name acc2 = None).
    { rewrite (visit_entries_get _ _ r_frame_name step_keeps_frame_name es2 _ _ Hk2 H2).
      exact Hs1. }
    destruct acc2 as [d u f m t p]; simpl in Hs2; subst f. split; [reflexivity|].
    intros r. unfold finish_resource; simpl.
    destruct d, u, m; simpl; intros Hr; inversion Hr; reflexivity.
  - assert (Hs1 : r_text_encoding_name acc1 = None).
    { exact (visit_entries_get _ _ r_text_encoding_name step_keeps_text_encoding es1 _ _ Hk1 H1). }
    simpl. rewrite (step_text_encoding_empty acc1 Hs1).
    rewrite (visit_entries_set _ _ _ step_set_text_encoding es2 acc1 Hk2).
    destruct (visit_entries resource_step acc1 es2) as [acc2|e] eqn:H2;
      [|split; [reflexivity|discriminate]].
    assert (Hs2 : r_text_encoding_name acc2 = None).
    { rewrite (visit_entries_get _ _ r_text_encoding_name step_keeps_text_encoding es2 _ _ Hk2 H2).
      exact Hs1. }
    destruct acc2 as [d u f m t p]; simpl in Hs2; subst t. split; [reflexivity|].
    intros r. unfold finish_resource; simpl.
    destruct d, u, m; simpl; intros Hr; inversion Hr; reflexivity.
Qed.

(** C3 at a sample resource: data and URL, an empty frame name (resp. text
    encoding), then the MIME type. *)
Lemma empty_string_reads_as_absent_witness :
  de_resource (PDictionary ([("WebResourceData", PData []); ("WebResourceURL", PString "u")]
                            ++ ("WebResourceFrameName", PString "")
                            :: [("WebResourceMIMEType", PString "text/plain")]))
  = de_resource (PDictionary ([("WebResourceData", PData []); ("WebResourceURL", PString "u")]
                              ++ [("WebResourceMIMEType", PString "text/plain")]))
  /\ de_resource (PDictionary ([("WebResourceData", PData []); ("WebResourceURL", PString "u")]
                              ++ ("WebResourceTextEncodingName", PString "")
                              :: [("WebResourceMIMEType", PString "text/plain")]))
  = de_resource (PDictionary ([("WebResourceData", PData []); ("WebResourceURL", PString "u")]
                              ++ [("WebResourceMIMEType", PString "text/plain")])).
Proof.
  split.
  - apply (proj1 empty_string_reads_as_absent). simpl. intuition discriminate.
  - apply (proj2 empty_string_reads_as_absent). simpl. intuition discriminate.
Defined.

(** ** C4: the total size *)

Lemma list_sum_flat_map (l : list WebArchive) (g : WebArchive -> list WebResource) :
  list_sum (map data_length (flat_map g l)) = list_sum (map (fun a => list_sum (map data_length (g a))) l).
Proof.
  induction l as [|a l IH]; [reflexivity|].
  simpl. rewrite map_app, list_sum_app, IH. reflexivity.
Qed.

(** C4: the total [print_list] reports for an archive (and [total_size])
    is the main resource's data length, plus the data lengths of the
    subresources, plus the totals of the subframe archives computed by the
    same rule, an absent list counting 0; it is the sum of the data lengths
    of every resource the archive holds, at any depth. *)
Theorem total_size_aggregates (a : WebArchive) :
  (exists subresource_count subframe_archive_count rest,
     print_list a =
     ArchiveLine (url (main_resource a)) (mime_type (main_resource a))
       (length (data (main_resource a))) subresource_count subframe_archive_count
       (length (data (main_resource a))
        + list_sum (map (fun r => length (data r)) (list_or_nil (subresources a)))
        + list_sum (map total_size (list_or_nil (subframe_archives a))))
     :: rest)
  /\ total_size a = list_sum (map (fun r => length (data r)) (extraction_order a)).
Proof.
  split.
  - destruct a as [m s f]. destruct s, f; do 3 eexists; simpl; reflexivity.
  - change (fun r => length (data r)) with data_length.
    induction a as [m s f IH] using webarchive_ind'.
    simpl. rewrite map_app, list_sum_app.
    change (fun r => length (data r)) with data_length.
    rewrite Nat.add_assoc. f_equal.
    + destruct s; reflexivity.
    + destruct f as [l|]; [|reflexivity].
      rewrite list_sum_flat_map. f_equal.
      induction IH as [|x l Hx _ IHl]; [reflexivity|].
      simpl. rewrite Hx, IHl. reflexivity.
Qed.

(** ** C10: the scheme-stripping step is total *)

Lemma prefix_dslash (c c' : ascii) (rest : string) :
  prefix "//" (String c (String c' rest)) = Ascii.eqb c "/"%char && Ascii.eqb c' "/"%char.
Proof.
  cbn [prefix]. destruct (ascii_dec "/"%char c) as [<-|Hc].
  - destruct (ascii_dec "/"%char c') as [<-|Hc']; [destruct rest; reflexivity|].
    rewrite andb_true_l. symmetry. apply Ascii.eqb_neq. auto.
  - replace (Ascii.eqb c "/"%char) with false; [reflexivity|].
    symmetry. apply Ascii.eqb_neq. auto.
Qed.

Lemma split_once_index (s : string) :
  match split_once s with
  | Some (a, b) => s = a ++ "//" ++ b /\ index 0 "//" s = Some (String.length a)
  | None => index 0 "//" s = None
  end.
Proof.
  induction s as [|c tl IH]; [reflexivity|].
  destruct tl as [|c' rest].
  - cbn [split_once index prefix]. destruct (ascii_dec "/"%char c); reflexivity.
  - change (index 0 "//" (String c (String c' rest)))
      with (if prefix "//" (String c (String c' rest)) then Some 0
            else match index 0 "//" (String c' rest) with
                 | Some n => Some (S n) | None => None end).
    rewrite prefix_dslash.
    change (split_once (String c (String c' rest)))
      with (if Ascii.eqb c "/"%char && Ascii.eqb c' "/"%char then Some (EmptyString, rest)
            else match split_once (String c' rest) with
                 | Some (a, b) => Some (String c a, b)
                 | None => None
                 end).
    destruct (Ascii.eqb c "/"%char && Ascii.eqb c' "/"%char) eqn:E.
    + apply andb_true_iff in E as [E1 E2].
      apply Ascii.eqb_eq in E1, E2. subst. split; reflexivity.
    + destruct (split_once (String c' rest)) as [[a b]|].
      * destruct IH as [Hs Hi]. rewrite Hi. split; [|reflexivity].
        rewrite Hs. reflexivity.
      * rewrite IH. reflexivity.
Qed.

Lemma substring_skip (a t : string) (k m : nat) :
  substring (String.length a + k) m (a ++ t) = substring k m t.
Proof. induction a as [|c a IH]; [reflexivity|]. exact IH. Qed.

Lemma substring_all (b : string) : substring 0 (String.length b) b = b.
Proof. induction b as [|c b IH]; [reflexivity|]. simpl. rewrite IH. reflexivity. Qed.

Lemma length_app (a b : string) : String.length (a ++ b) = String.length a + String.length b.
Proof. induction a as [|c a IH]; [reflexivity|]. simpl. rewrite IH. reflexivity. Qed.

Lemma iter_last_splitn2 (s : string) : iter_last (splitn2 s) = Some (after_first_dslash s).
Proof.
  unfold splitn2, after_first_dslash. pose proof (split_once_index s) as H.
  destruct (split_once s) as [[a b]|].
  - destruct H as [Hs Hi]. rewrite Hi. simpl. f_equal.
    rewrite Hs, !length_app, substring_skip.
    replace (String.length a + (String.length "//" + String.length b) - (String.length a + 2))
      with (String.length b) by (simpl; lia).
    symmetry. exact (substring_all b).
  - rewrite H. reflexivity.
Qed.

(** C10: [splitn(2, "//").last()] never returns [None], so the
    "File should have a protocol" panic is unreachable: the result is
    everything after the first ["//"], and the whole URL when it contains
    no ["//"]. *)
Theorem protocol_split_total (s : string) :
  iter_last (splitn2 s)
  = Some (match index 0 "//" s with
          | Some n => substring (n + 2) (String.length s - (n + 2)) s
          | None => s
          end).
Proof. exact (iter_last_splitn2 s). Qed.

(** ** C5: file names for directory-like URLs *)

Lemma save_path_eq (table : mime_table) (inside : string) (r : WebResource) :
  save_path table inside r =
  let u := after_first_dslash (url r) in
  if ends_with_slash u then
    match guessed_ext table (mime_type r) with
    | None => None
    | Some ext => Some (path_join inside (u ++ "_unnamed_index." ++ ext))
    end
  else Some (path_join inside u).
Proof. unfold save_path. rewrite iter_last_splitn2. reflexivity. Qed.

Lemma iter_last_nonempty {A} (l : list A) : l <> [] -> exists x, iter_last l = Some x.
Proof.
  intros H. induction l as [|x l IH]; [contradiction|].
  destruct l as [|y l]; [eexists; reflexivity|].
  apply IH. discriminate.
Qed.

(** C5: with a MIME table that never answers with an empty list (as
    mime_guess's), a resource whose URL remainder ends in ['/'] is saved to
    the base directory joined with the remainder, ["_unnamed_index."] and an
    extension: ["txt"] when the table knows no extension for the MIME type,
    else the last one it lists.  With mime_guess's [image/png] entry
    [["png"; "pnz"]], ["http://example.com/assets/"] of type ["image/png"]
    goes to [<base>/example.com/assets/_unnamed_index.pnz]; and
    ["http://example.com/a.png"] goes to [<base>/example.com/a.png]. *)
Theorem unnamed_index_file_name (table : mime_table) :
  (forall m l, table m = Some l -> l <> []) ->
  (forall inside r,
     ends_with_slash (after_first_dslash (url r)) = true ->
     exists ext,
       save_path table inside r
       = Some (path_join inside (after_first_dslash (url r) ++ "_unnamed_index." ++ ext))
       /\ (table (mime_type r) = None -> ext = "txt")
       /\ (forall l, table (mime_type r) = Some l -> iter_last l = Some ext))
  /\ (forall inside d,
        table "image/png" = Some ["png"; "pnz"] ->
        save_path table inside (res_at "http://example.com/assets/" "image/png" d)
        = Some (path_join inside "example.com/assets/_unnamed_index.pnz"))
  /\ (forall inside m d,
        save_path table inside (res_at "http://example.com/a.png" m d)
        = Some (path_join inside "example.com/a.png")).
Proof.
  intros Hne. split; [|split].
  - intros inside r Hslash. rewrite save_path_eq. cbv zeta. rewrite Hslash.
    unfold guessed_ext. destruct (table (mime_type r)) as [l|] eqn:Ht.
    + destruct (iter_last_nonempty l (Hne _ _ Ht)) as [ext Hext].
      rewrite Hext. exists ext. split; [reflexivity|].
      split; [discriminate|]. intros l' Hl'. inversion Hl'; subst; exact Hext.
    + exists "txt". split; [reflexivity|]. split; [reflexivity|discriminate].
  - intros inside d Hl. unfold save_path, guessed_ext. simpl.
    rewrite Hl. reflexivity.
  - intros inside m d. reflexivity.
Qed.

Lemma unnamed_index_file_name_witness :
  (forall m l, mime_guess_excerpt m = Some l -> l <> [])
  /\ save_path mime_guess_excerpt "out" (res_at "http://example.com/assets/" "image/png" [])
     = Some (path_join "out" "example.com/assets/_unnamed_index.pnz")
  /\ save_path mime_guess_excerpt "out" (res_at "http://example.com/assets/" "image/png" [])
     = Some "out/example.com/assets/_unnamed_index.pnz".
Proof.
  assert (Hne : forall m l, mime_guess_excerpt m = Some l -> l <> []).
  { intros m l. unfold mime_guess_excerpt.
    repeat match goal with |- context [if ?b then _ else _] => destruct b end;
      intros H; inversion H; discriminate. }
  split; [exact Hne|].
  destruct (unnamed_index_file_name mime_guess_excerpt Hne) as [_ [Hpng _]].
  split.
  - apply Hpng. reflexivity.
  - rewrite (Hpng "out" [] eq_refl). reflexivity.
Defined.

(** C5, the claim's example fails: mime_guess lists ["png"] and then
    ["pnz"] for [image/png], and [save] takes the last one, so
    ["http://example.com/assets/"] of type ["image/png"] is written to
    [out/example.com/assets/_unnamed_index.pnz], not to
    [out/example.com/assets/_unnamed_index.png]. *)
Lemma unnamed_index_png_counterexample :
  save_path mime_guess_excerpt "out" (res_at "http://example.com/assets/" "image/png" [])
  = Some "out/example.com/assets/_unnamed_index.pnz"
  /\ save_path mime_guess_excerpt "out" (res_at "http://example.com/assets/" "image/png" [])
     <> Some "out/example.com/assets/_unnamed_index.png".
Proof.
  split; [reflexivity|]. intros H. vm_compute in H. discriminate H.
Qed.

(** ** C8: no guard against paths escaping the base directory *)

(** C8, the claim as stated fails: the remainder ["../../etc/passwd"] of
    ["http://../../etc/passwd"] is joined onto ["out"] unchanged; the
    resulting path lies outside ["out"], and [save] writes the resource
    there. *)
Lemma path_traversal_counterexample :
  let r := res_at "http://../../etc/passwd" "text/plain" [x41] in
  save_path mime_guess_excerpt "out" r = Some "out/../../etc/passwd"
  /\ within "out" "out/../../etc/passwd" = false
  /\ save mime_guess_excerpt (fun _ _ => None) r "out" []
     = (Done, [("out/../../etc/passwd", [x41])]).
Proof. split; [|split]; reflexivity. Qed.

(** C8 (amended): the path is the base directory joined ([Path::join]) with
    the URL remainder as it is, and nothing rejects or rewrites [".."] or
    absolute remainders: for a remainder not ending in ['/'] the saved path
    is exactly [path_join inside remainder]; for one ending in ['/'] it is
    [path_join inside (remainder ++ "_unnamed_index." ++ ext)] with the
    guessed extension, which exists unless the table answers an empty list
    (where [save] panics); and an absolute remainder replaces the base
    directory. *)
Theorem derived_path_unguarded (table : mime_table) (inside : string) (r : WebResource) :
  (ends_with_slash (after_first_dslash (url r)) = false ->
   save_path table inside r = Some (path_join inside (after_first_dslash (url r))))
  /\ (ends_with_slash (after_first_dslash (url r)) = true ->
      (table (mime_type r) = Some [] \/ exists ext, guessed_ext table (mime_type r) = Some ext)
      /\ (forall ext, guessed_ext table (mime_type r) = Some ext ->
          save_path table inside r
          = Some (path_join inside (after_first_dslash (url r) ++ "_unnamed_index." ++ ext))))
  /\ (starts_with_slash (after_first_dslash (url r)) = true ->
      forall p, save_path table inside r = Some p ->
      exists suffix, p = (after_first_dslash (url r) ++ suffix)%string).
Proof.
  split; [|split].
  - intros H. rewrite save_path_eq. cbv zeta. rewrite H. reflexivity.
  - intros H. split.
    + unfold guessed_ext. destruct (table (mime_type r)) as [l|]; [|right; eexists; reflexivity].
      destruct l as [|x l]; [left; reflexivity|right].
      destruct (iter_last_nonempty (x :: l)) as [ext Hext]; [discriminate|].
      exists ext. exact Hext.
    + intros ext He. rewrite save_path_eq. cbv zeta. rewrite H, He. reflexivity.
  - intros Habs p. rewrite save_path_eq. cbv zeta.
    assert (Hj : forall s, path_join inside (after_first_dslash (url r) ++ s)
                           = (after_first_dslash (url r) ++ s)%string).
    { intros s. unfold path_join.
      destruct (after_first_dslash (url r)) as [|c u]; [discriminate|].
      cbn [String.append starts_with_slash] in *. rewrite Habs. reflexivity. }
    destruct (ends_with_slash (after_first_dslash (url r))).
    + destruct (guessed_ext table (mime_type r)) as [ext|]; [|discriminate].
      intros Hp. injection Hp as <-. rewrite Hj. eexists; reflexivity.
    + intros Hp. injection Hp as <-. exists "".
      assert (He : forall t : string, (t ++ "")%string = t)
        by (induction t as [|c t IH]; [reflexivity|cbn; rewrite IH; reflexivity]).
      rewrite <- (Hj ""). rewrite He. reflexivity.
Qed.

Lemma derived_path_unguarded_witness :
  save_path mime_guess_excerpt "out" (res_at "http://../../" "application/x-unknown" [])
  = Some "out/../../_unnamed_index.txt"
  /\ within "out" "out/../../_unnamed_index.txt" = false
  /\ save_path mime_guess_excerpt "out" (res_at "file:///etc/passwd" "text/plain" [])
     = Some "/etc/passwd".
Proof.
  split; [|split].
  - apply (proj2 (proj1 (proj2 (derived_path_unguarded mime_guess_excerpt "out"
             (res_at "http://../../" "application/x-unknown" []))) eq_refl) "txt");
      reflexivity.
  - reflexivity.
  - apply (proj1 (derived_path_unguarded mime_guess_excerpt "out"
           (res_at "file:///etc/passwd" "text/plain" []))); reflexivity.
Defined.

(** ** C6: extraction order, and the first failure stops it *)

Ltac agree_tac :=
  unfold agrees; simpl; split; [split; intros; first [reflexivity|discriminate]|reflexivity].

Section FailFast.
Variable (table : mime_table) (fs_error : written -> string -> option io_error).
Variable inside : string.

Lemma save_all_app (rs1 rs2 : list WebResource) (w : written) :
  save_all table fs_error (rs1 ++ rs2) inside w
  = match save_all table fs_error rs1 inside w with
    | (true, w1) => save_all table fs_error rs2 inside w1
    | (false, w1) => (false, w1)
    end.
Proof.
  revert w. induction rs1 as [|r rs1 IH]; intros w; [reflexivity|].
  simpl. destruct (save table fs_error r inside w) as [[| |] w1]; [apply IH|reflexivity..].
Qed.

Lemma for_each_expect_agrees {X} (f : X -> written -> outcome * written)
    (g : X -> list WebResource) (msg : string) (xs : list X) :
  (forall x, In x xs -> forall w, agrees (f x w) (save_all table fs_error (g x) inside w)) ->
  forall w, agrees (for_each_expect f msg xs w)
                   (save_all table fs_error (flat_map g xs) inside w).
Proof.
  induction xs as [|x xs IH]; intros Hx w.
  - agree_tac.
  - simpl. rewrite save_all_app.
    destruct (Hx x (or_introl eq_refl) w) as [Hd Hw].
    destruct (f x w) as [o w1], (save_all table fs_error (g x) inside w) as [b w2].
    simpl in Hd, Hw. subst w2.
    destruct o, b; try (destruct Hd as [H1 H2]; discriminate (H1 eq_refl) || discriminate (H2 eq_refl)).
    + apply IH. intros y Hy. apply Hx. right; exact Hy.
    + agree_tac.
    + agree_tac.
Qed.

Lemma save_all_single (r : WebResource) (w : written) :
  agrees (save table fs_error r inside w) (save_all table fs_error [r] inside w).
Proof.
  simpl. destruct (save table fs_error r inside w) as [[| |] w1]; agree_tac.
Qed.

Lemma save_archive_agrees (a : WebArchive) (w : written) :
  agrees (save_archive table fs_error a inside w)
         (save_all table fs_error (extraction_order a) inside w).
Proof.
  revert w. induction a as [m s f IH] using webarchive_ind'. intros w.
  simpl. destruct (save table fs_error m inside w) as [[| |] w1];
    [|agree_tac..].
  rewrite save_all_app.
  assert (Hs : agrees (match s with
                       | Some subresources =>
                           for_each_expect (fun r => save table fs_error r inside)
                             "Could not save subresource" subresources w1
                       | None => (Done, w1)
                       end)
                      (save_all table fs_error (list_or_nil s) inside w1)).
  { destruct s as [l|]; [|agree_tac].
    pose proof (for_each_expect_agrees (fun r => save table fs_error r inside) (fun r => [r])
                  "Could not save subresource" l (fun r _ w => save_all_single r w) w1) as H.
    replace (flat_map (fun r => [r]) l) with l in H; [exact H|].
    clear. induction l as [|r l IH]; [reflexivity|]. simpl. f_equal. exact IH. }
  destruct (match s with
            | Some subresources =>
                for_each_expect (fun r => save table fs_error r inside)
                  "Could not save subresource" subresources w1
            | None => (Done, w1)
            end) as [o w2],
    (save_all table fs_error (list_or_nil s) inside w1) as [b w2'].
  destruct Hs as [Hd Hw]; simpl in Hd, Hw; subst w2'.
  destruct o, b; try (destruct Hd as [H1 H2]; discriminate (H1 eq_refl) || discriminate (H2 eq_refl));
    [|agree_tac..].
  destruct f as [l|]; [|agree_tac].
  apply for_each_expect_agrees. intros x Hx w'.
  rewrite Forall_forall in IH. apply IH, Hx.
Qed.

Lemma save_all_stops (rs : list WebResource) (w w' : written) :
  save_all table fs_error rs inside w = (false, w') ->
  exists pre r suf lp o,
    rs = (pre ++ r :: suf)%list
    /\ save_all table fs_error pre inside w = (true, lp)
    /\ save table fs_error r inside lp = (o, w') /\ o <> Done.
Proof.
  revert w. induction rs as [|r rs IH]; intros w H; [discriminate|].
  simpl in H. destruct (save table fs_error r inside w) as [o w1] eqn:Hsave.
  destruct o.
  - destruct (IH w1 H) as [pre [r' [suf [lp [o [-> [Hpre [Hr Ho]]]]]]]].
    exists (r :: pre), r', suf, lp, o. repeat split; auto.
    simpl. rewrite Hsave. exact Hpre.
  - inversion H; subst. exists [], r, rs, w, (Failed e). repeat split; auto. discriminate.
  - inversion H; subst. exists [], r, rs, w, (Panicked msg). repeat split; auto. discriminate.
Qed.

End FailFast.

(** C6: [save_archive] saves the main resource, then each subresource in
    list order, then each subframe archive in list order (depth first), all
    into the same directory [inside]; and as soon as saving one resource
    fails (an I/O error, or a panic), nothing after it is written: the files
    written are exactly those of the resources before it, in order, plus
    whatever the failing save itself left. *)
Theorem save_archive_fail_fast (table : mime_table)
    (fs_error : written -> string -> option io_error) (inside : string)
    (a : WebArchive) (w : written) :
  match save_archive table fs_error a inside w with
  | (Done, w') => save_all table fs_error (extraction_order a) inside w = (true, w')
  | (_, w') =>
      exists pre r suf lp o,
        extraction_order a = (pre ++ r :: suf)%list
        /\ save_all table fs_error pre inside w = (true, lp)
        /\ save table fs_error r inside lp = (o, w') /\ o <> Done
  end.
Proof.
  destruct (save_archive_agrees table fs_error inside a w) as [Hd Hw].
  destruct (save_archive table fs_error a inside w) as [o w'].
  destruct (save_all table fs_error (extraction_order a) inside w) as [b w''] eqn:E.
  simpl in Hd, Hw. subst w''.
  destruct o.
  - f_equal. apply Hd. reflexivity.
  - destruct b; [destruct Hd as [_ H]; discriminate (H eq_refl)|].
    apply (save_all_stops table fs_error inside _ _ _ E).
  - destruct b; [destruct Hd as [_ H]; discriminate (H eq_refl)|].
    apply (save_all_stops table fs_error inside _ _ _ E).
Qed.


(** ** Further properties: key order in dictionaries *)

Lemma resource_step_comm (acc a1 a2 : resource_fields) k1 x1 k2 x2 :
  k1 <> k2 -> resource_step acc k1 x1 = Ok a1 -> resource_step a1 k2 x2 = Ok a2 ->
  exists a1', resource_step acc k2 x2 = Ok a1' /\ resource_step a1' k1 x1 = Ok a2.
Proof.
  intros Hk H1 H2. destruct acc as [d u f m t p].
  unfold resource_step in H1 |- *.
  destruct (resource_field_of_key k1) as [f1|] eqn:E1; [|discriminate].
  destruct (resource_field_of_key k2) as [f2|] eqn:E2;
    [|destruct f1; (destruct (fill _ _ _); [|discriminate]);
      inversion H1; subst; unfold resource_step in H2; rewrite E2 in H2; discriminate].
  destruct f1, f2;
    try (apply resource_field_of_key_inv in E1; apply resource_field_of_key_inv in E2;
         subst; congruence);
    (destruct (fill _ _ _) eqn:F1 in H1; [|discriminate]);
    inversion H1; subst; unfold resource_step in H2; rewrite E2 in H2;
    (destruct (fill _ _ _) eqn:F2 in H2; [|discriminate]);
    inversion H2; subst; rewrite F2; eexists; (split; [reflexivity|]);
    cbn [resource_step]; rewrite ?E1, F1; reflexivity.
Qed.

Lemma archive_field_of_key_inv (k : string) (fld : archive_field) :
  archive_field_of_key k = Some fld ->
  k = match fld with
      | FMainResource => "WebMainResource" | FSubresources => "WebSubresources"
      | FSubframeArchives => "WebSubframeArchives"
      end.
Proof.
  unfold archive_field_of_key.
  repeat match goal with
         | |- context [String.eqb ?a ?b] => destruct (String.eqb_spec a b)
         end; intros H; inversion H; subst; reflexivity.
Qed.

Lemma archive_step_comm (acc a1 a2 : archive_fields) k1 x1 k2 x2 :
  k1 <> k2 -> archive_step de_archive acc k1 x1 = Ok a1 ->
  archive_step de_archive a1 k2 x2 = Ok a2 ->
  exists a1', archive_step de_archive acc k2 x2 = Ok a1'
              /\ archive_step de_archive a1' k1 x1 = Ok a2.
Proof.
  intros Hk H1 H2. destruct acc as [m s f].
  unfold archive_step in H1 |- *.
  destruct (archive_field_of_key k1) as [f1|] eqn:E1; [|discriminate].
  destruct (archive_field_of_key k2) as [f2|] eqn:E2;
    [|destruct f1; (destruct (fill _ _ _); [|discriminate]);
      inversion H1; subst; unfold archive_step in H2; rewrite E2 in H2; discriminate].
  destruct f1, f2;
    try (apply archive_field_of_key_inv in E1; apply archive_field_of_key_inv in E2;
         subst; congruence);
    (destruct (fill _ _ _) eqn:F1 in H1; [|discriminate]);
    inversion H1; subst; unfold archive_step in H2; rewrite E2 in H2;
    (destruct (fill _ _ _) eqn:F2 in H2; [|discriminate]);
    inversion H2; subst; rewrite F2; eexists; (split; [reflexivity|]);
    cbn [archive_step]; rewrite ?E1, F1; reflexivity.
Qed.

Section VisitPermutation.
Context {Acc : Type} (step : Acc -> string -> plist -> result Acc).
Hypothesis step_comm : forall acc a1 a2 k1 x1 k2 x2,
  k1 <> k2 -> step acc k1 x1 = Ok a1 -> step a1 k2 x2 = Ok a2 ->
  exists a1', step acc k2 x2 = Ok a1' /\ step a1' k1 x1 = Ok a2.

Lemma visit_entries_perm (es es' : list (string * plist)) :
  Permutation es es' -> NoDup (map fst es) ->
  forall acc acc', visit_entries step acc es = Ok acc' -> visit_entries step acc es' = Ok acc'.
Proof.
  induction 1 as [|[k x] l l' _ IH|[k1 x1] [k2 x2] l|l l' l'' H1 IH1 _ IH2];
    intros Hnd acc acc' Hv.
  - exact Hv.
  - simpl in Hnd, Hv |- *. inversion Hnd; subst.
    destruct (step acc k x) as [a1|e]; [|discriminate]. apply IH; assumption.
  - simpl in Hnd, Hv |- *. inversion Hnd as [|? ? Hn1 Hnd1]; subst.
    destruct (step acc k2 x2) as [a1|e] eqn:S1; [|discriminate].
    destruct (step a1 k1 x1) as [a2|e] eqn:S2; [|discriminate].
    assert (Hk : k2 <> k1) by (intros ->; apply Hn1; left; reflexivity).
    destruct (step_comm _ _ _ _ _ _ _ Hk S1 S2) as [a1' [S1' S2']].
    rewrite S1', S2'. exact Hv.
  - apply IH2; [|apply IH1; assumption].
    apply (Permutation_NoDup (Permutation_map fst H1) Hnd).
Qed.
End VisitPermutation.

(** The order of the keys of a [WebResource] dictionary, and of a
    [WebArchive] dictionary, does not matter: when the keys are distinct,
    a reordered dictionary decodes to the same value. *)
Theorem decode_key_order_irrelevant (es es' : list (string * plist)) :
  Permutation es es' -> NoDup (map fst es) ->
  (forall r, de_resource (PDictionary es) = Ok r -> de_resource (PDictionary es') = Ok r)
  /\ (forall a, de_archive (PDictionary es) = Ok a -> de_archive (PDictionary es') = Ok a).
Proof.
  intros Hp Hnd. split.
  - intros r. simpl.
    destruct (visit_entries resource_step no_resource_fields es) as [acc|e] eqn:Hv;
      [|discriminate].
    rewrite (visit_entries_perm resource_step resource_step_comm es es' Hp Hnd _ _ Hv).
    exact (fun H => H).
  - intros a. simpl.
    destruct (visit_entries (archive_step de_archive) no_archive_fields es) as [acc|e] eqn:Hv;
      [|discriminate].
    rewrite (visit_entries_perm (archive_step de_archive) archive_step_comm es es' Hp Hnd _ _ Hv).
    exact (fun H => H).
Qed.

Lemma decode_key_order_irrelevant_witness :
  Permutation [("WebResourceURL", PString "u"); ("WebResourceMIMEType", PString "text/plain");
               ("WebResourceData", PData [])]
              [("WebResourceData", PData []); ("WebResourceURL", PString "u");
               ("WebResourceMIMEType", PString "text/plain")]
  /\ de_resource (PDictionary [("WebResourceData", PData []); ("WebResourceURL", PString "u");
                               ("WebResourceMIMEType", PString "text/plain")])
     = Ok (res_at "u" "text/plain" []).
Proof.
  assert (Hp : Permutation [("WebResourceURL", PString "u");
                            ("WebResourceMIMEType", PString "text/plain");
                            ("WebResourceData", PData [])]
                           [("WebResourceData", PData []); ("WebResourceURL", PString "u");
                            ("WebResourceMIMEType", PString "text/plain")]).
  { apply Permutation_sym.
    apply (Permutation_cons_append [("WebResourceURL", PString "u");
                                    ("WebResourceMIMEType", PString "text/plain")]). }
  split; [exact Hp|].
  apply (proj1 (decode_key_order_irrelevant _ _ Hp
                  (ltac:(repeat constructor; simpl; intuition discriminate)))).
  reflexivity.
Defined.

(** ** Further properties: a field given twice *)

Section Duplicates.
Context {Acc F : Type} (step : Acc -> string -> plist -> result Acc)
  (field_of : string -> option F) (filled : Acc -> F -> bool).
Hypothesis step_fills : forall acc k x acc' fld,
  field_of k = Some fld -> step acc k x = Ok acc' -> filled acc' fld = true.
Hypothesis step_keeps : forall acc k x acc' fld,
  step acc k x = Ok acc' -> filled acc fld = true -> filled acc' fld = true.
Hypothesis step_dup : forall acc k x fld,
  field_of k = Some fld -> filled acc fld = true -> step acc k x = Err (DuplicateField k).

Lemma visit_keeps_filled (es : list (string * plist)) (acc acc' : Acc) fld :
  visit_entries step acc es = Ok acc' -> filled acc fld = true -> filled acc' fld = true.
Proof.
  revert acc. induction es as [|[k x] es IH]; intros acc Hv Hf.
  - inversion Hv; subst; exact Hf.
  - simpl in Hv. destruct (step acc k x) as [a1|e] eqn:S; [|discriminate].
    apply (IH a1 Hv), (step_keeps _ _ _ _ _ S Hf).
Qed.

Lemma visit_duplicate (es1 es2 es3 : list (string * plist)) k x1 x2 (acc0 : Acc) fld :
  field_of k = Some fld ->
  (exists e, visit_entries step acc0 (es1 ++ (k, x1) :: es2 ++ (k, x2) :: es3) = Err e)
  /\ (forall acc, visit_entries step acc0 (es1 ++ (k, x1) :: es2 ++ es3) = Ok acc ->
        visit_entries step acc0 (es1 ++ (k, x1) :: es2 ++ (k, x2) :: es3)
        = Err (DuplicateField k)).
Proof.
  intros Hk.
  assert (Hpre : forall acc, visit_entries step acc0 (es1 ++ (k, x1) :: es2) = Ok acc ->
                             filled acc fld = true).
  { intros acc Hv. rewrite visit_entries_app in Hv.
    destruct (visit_entries step acc0 es1) as [a1|e]; [|discriminate].
    simpl in Hv. destruct (step a1 k x1) as [a2|e] eqn:S; [|discriminate].
    apply (visit_keeps_filled es2 a2 acc fld Hv), (step_fills _ _ _ _ _ Hk S). }
  assert (Hsplit : forall tl : list (string * plist),
             (es1 ++ (k, x1) :: es2 ++ tl = (es1 ++ (k, x1) :: es2) ++ tl)%list)
    by (intros tl; rewrite <- app_assoc; reflexivity).
  rewrite !Hsplit, !(visit_entries_app step acc0 (es1 ++ (k, x1) :: es2)%list).
  destruct (visit_entries step acc0 (es1 ++ (k, x1) :: es2)) as [acc|e] eqn:Hv.
  - simpl. rewrite (step_dup acc k x2 fld Hk (Hpre acc eq_refl)).
    split; [eexists; reflexivity|reflexivity].
  - split; [eexists; reflexivity|discriminate].
Qed.
End Duplicates.

Lemma fill_some {A} (name : string) (slot : option A) (de : result A) a :
  fill name slot de = Ok a -> exists y, a = Some y.
Proof.
  unfold fill. destruct slot; [discriminate|].
  destruct de as [y|]; [|discriminate]. intros H; inversion H; eauto.
Qed.

Lemma resource_step_fills acc k x acc' fld :
  resource_field_of_key k = Some fld -> resource_step acc k x = Ok acc' ->
  resource_slot_filled acc' fld = true.
Proof.
  intros Hk Hs. destruct acc; unfold resource_step in Hs; rewrite Hk in Hs.
  destruct fld; (destruct (fill _ _ _) eqn:F; [|discriminate]); inversion Hs; subst;
    destruct (fill_some _ _ _ _ F) as [y ->]; reflexivity.
Qed.

Lemma resource_step_keeps acc k x acc' fld :
  resource_step acc k x = Ok acc' -> resource_slot_filled acc fld = true ->
  resource_slot_filled acc' fld = true.
Proof.
  intros Hs Hf. destruct acc as [d u f m t p]; unfold resource_step in Hs.
  destruct (resource_field_of_key k) as [fk|]; [|discriminate].
  destruct fk; (destruct (fill _ _ _) eqn:F; [|discriminate]); inversion Hs; subst;
    destruct fld; simpl in Hf |- *;
    first [exact Hf | destruct (fill_some _ _ _ _ F) as [y ->]; reflexivity].
Qed.

Lemma resource_step_dup acc k x fld :
  resource_field_of_key k = Some fld -> resource_slot_filled acc fld = true ->
  resource_step acc k x = Err (DuplicateField k).
Proof.
  intros Hk Hf. pose proof (resource_field_of_key_inv k fld Hk) as Hkk.
  destruct acc as [d u f m t p]; unfold resource_step; rewrite Hk.
  destruct fld; simpl in Hf; subst k;
    match goal with |- context [fill _ ?s _] => destruct s; [reflexivity|discriminate] end.
Qed.

Lemma archive_step_fills acc k x acc' fld :
  archive_field_of_key k = Some fld -> archive_step de_archive acc k x = Ok acc' ->
  archive_slot_filled acc' fld = true.
Proof.
  intros Hk Hs. destruct acc; unfold archive_step in Hs; rewrite Hk in Hs.
  destruct fld; (destruct (fill _ _ _) eqn:F; [|discriminate]); inversion Hs; subst;
    destruct (fill_some _ _ _ _ F) as [y ->]; reflexivity.
Qed.

Lemma archive_step_keeps acc k x acc' fld :
  archive_step de_archive acc k x = Ok acc' -> archive_slot_filled acc fld = true ->
  archive_slot_filled acc' fld = true.
Proof.
  intros Hs Hf. destruct acc as [m s f]; unfold archive_step in Hs.
  destruct (archive_field_of_key k) as [fk|]; [|discriminate].
  destruct fk; (destruct (fill _ _ _) eqn:F; [|discriminate]); inversion Hs; subst;
    destruct fld; simpl in Hf |- *;
    first [exact Hf | destruct (fill_some _ _ _ _ F) as [y ->]; reflexivity].
Qed.

Lemma archive_step_dup acc k x fld :
  archive_field_of_key k = Some fld -> archive_slot_filled acc fld = true ->
  archive_step de_archive acc k x = Err (DuplicateField k).
Proof.
  intros Hk Hf. pose proof (archive_field_of_key_inv k fld Hk) as Hkk.
  destruct acc as [m s f]; unfold archive_step; rewrite Hk.
  destruct fld; simpl in Hf; subst k;
    match goal with |- context [fill _ ?s _] => destruct s; [reflexivity|discriminate] end.
Qed.

(** A field key given twice in a [WebResource] dictionary, or in a
    [WebArchive] dictionary, makes decoding fail; when the dictionary
    without the second occurrence decodes, the error is
    [DuplicateField] of that key. *)
Theorem duplicate_key_rejected (es1 es2 es3 : list (string * plist)) (k : string)
    (x1 x2 : plist) :
  (resource_field_of_key k <> None ->
   (exists e, de_resource (PDictionary (es1 ++ (k, x1) :: es2 ++ (k, x2) :: es3)) = Err e)
   /\ (forall r, de_resource (PDictionary (es1 ++ (k, x1) :: es2 ++ es3)) = Ok r ->
        de_resource (PDictionary (es1 ++ (k, x1) :: es2 ++ (k, x2) :: es3))
        = Err (DuplicateField k)))
  /\ (archive_field_of_key k <> None ->
   (exists e, de_archive (PDictionary (es1 ++ (k, x1) :: es2 ++ (k, x2) :: es3)) = Err e)
   /\ (forall a, de_archive (PDictionary (es1 ++ (k, x1) :: es2 ++ es3)) = Ok a ->
        de_archive (PDictionary (es1 ++ (k, x1) :: es2 ++ (k, x2) :: es3))
        = Err (DuplicateField k))).
Proof.
  split; intros Hk.
  - destruct (resource_field_of_key k) as [fld|] eqn:Hf; [|congruence].
    destruct (visit_duplicate resource_step resource_field_of_key resource_slot_filled
                resource_step_fills resource_step_keeps resource_step_dup
                es1 es2 es3 k x1 x2 no_resource_fields fld Hf) as [[e He] Hok].
    unfold de_resource. split; [rewrite He; eexists; reflexivity|].
    intros r. destruct (visit_entries resource_step no_resource_fields
                          (es1 ++ (k, x1) :: es2 ++ es3)) as [acc|e'] eqn:Hv;
      [|discriminate].
    rewrite (Hok acc eq_refl). reflexivity.
  - destruct (archive_field_of_key k) as [fld|] eqn:Hf; [|congruence].
    destruct (visit_duplicate (archive_step de_archive) archive_field_of_key
                archive_slot_filled archive_step_fills archive_step_keeps archive_step_dup
                es1 es2 es3 k x1 x2 no_archive_fields fld Hf) as [[e He] Hok].
    cbn [de_archive]. split; [rewrite He; eexists; reflexivity|].
    intros a. destruct (visit_entries (archive_step de_archive) no_archive_fields
                          (es1 ++ (k, x1) :: es2 ++ es3)) as [acc|e'] eqn:Hv;
      [|discriminate].
    rewrite (Hok acc eq_refl). reflexivity.
Qed.

Lemma duplicate_key_rejected_witness :
  resource_field_of_key "WebResourceURL" <> None
  /\ de_resource (PDictionary [("WebResourceData", PData []); ("WebResourceURL", PString "u");
                               ("WebResourceMIMEType", PString "text/plain");
                               ("WebResourceURL", PString "v")])
     = Err (DuplicateField "WebResourceURL").
Proof.
  split; [discriminate|].
  apply (proj2 (proj1 (duplicate_key_rejected [("WebResourceData", PData [])]
                         [("WebResourceMIMEType", PString "text/plain")] []
                         "WebResourceURL" (PString "u") (PString "v")) ltac:(discriminate))
           (res_at "u" "text/plain" [])).
  reflexivity.
Defined.

(** ** Further properties: the other required fields *)

Lemma step_keeps_data (acc : resource_fields) k x acc' :
  k <> "WebResourceData" -> resource_step acc k x = Ok acc' -> r_data acc' = r_data acc.
Proof.
  intros Hk Hs. destruct acc; unfold resource_step in Hs.
  destruct (resource_field_of_key k) as [[]|] eqn:Hfld;
    try (apply resource_field_of_key_inv in Hfld; contradiction); try discriminate;
    match type of Hs with context [fill ?n ?s ?d] => destruct (fill n s d) end;
    inversion Hs; reflexivity.
Qed.

Lemma step_keeps_url (acc : resource_fields) k x acc' :
  k <> "WebResourceURL" -> resource_step acc k x = Ok acc' -> r_url acc' = r_url acc.
Proof.
  intros Hk Hs. destruct acc; unfold resource_step in Hs.
  destruct (resource_field_of_key k) as [[]|] eqn:Hfld;
    try (apply resource_field_of_key_inv in Hfld; contradiction); try discriminate;
    match type of Hs with context [fill ?n ?s ?d] => destruct (fill n s d) end;
    inversion Hs; reflexivity.
Qed.

Lemma step_keeps_main_resource (acc : archive_fields) k x acc' :
  k <> "WebMainResource" -> archive_step de_archive acc k x = Ok acc' ->
  a_main_resource acc' = a_main_resource acc.
Proof.
  intros Hk Hs. destruct acc; unfold archive_step in Hs.
  destruct (archive_field_of_key k) as [[]|] eqn:Hfld;
    try (apply archive_field_of_key_inv in Hfld; contradiction); try discriminate;
    match type of Hs with context [fill ?n ?s ?d] => destruct (fill n s d) end;
    inversion Hs; reflexivity.
Qed.

Lemma lacks_key_not_in (k : string) (es : list (string * plist)) :
  lacks_key k (PDictionary es) = true -> ~ In k (map fst es).
Proof.
  unfold lacks_key. intros H Hin. apply negb_true_iff in H.
  assert (existsb (String.eqb k) (map fst es) = true)
    by (apply existsb_exists; exists k; split; [exact Hin|apply String.eqb_refl]).
  congruence.
Qed.

Lemma de_resource_lacks_data (v : plist) :
  lacks_key "WebResourceData" v = true -> fails (de_resource v).
Proof.
  intros H. destruct v; try discriminate. apply lacks_key_not_in in H.
  simpl. destruct (visit_entries resource_step no_resource_fields entries) as [acc|e] eqn:Hv;
    [|eexists; reflexivity].
  pose proof (visit_entries_get _ _ r_data step_keeps_data _ _ _ H Hv) as Hd. simpl in Hd.
  unfold finish_resource. rewrite Hd. eexists; reflexivity.
Qed.

Lemma de_resource_lacks_url (v : plist) :
  lacks_key "WebResourceURL" v = true -> fails (de_resource v).
Proof.
  intros H. destruct v; try discriminate. apply lacks_key_not_in in H.
  simpl. destruct (visit_entries resource_step no_resource_fields entries) as [acc|e] eqn:Hv;
    [|eexists; reflexivity].
  pose proof (visit_entries_get _ _ r_url step_keeps_url _ _ _ H Hv) as Hu. simpl in Hu.
  unfold finish_resource. rewrite Hu.
  destruct (required "WebResourceData" (r_data acc)); eexists; reflexivity.
Qed.

(** [data] and [url] are required like [mime_type]: a resource
    dictionary without [WebResourceData], or without [WebResourceURL], at
    any resource place of an archive document makes decoding fail; and an
    archive dictionary without [WebMainResource] fails to decode, with
    [MissingField "WebMainResource"] when its entries decode. *)
Theorem required_fields (v : plist) (es : list (string * plist)) :
  (resource_place_with (lacks_key "WebResourceData") v = true
   \/ resource_place_with (lacks_key "WebResourceURL") v = true ->
   exists e, de_archive v = Err e)
  /\ (~ In "WebMainResource" (map fst es) ->
      (exists e, de_archive (PDictionary es) = Err e)
      /\ (forall acc, visit_entries (archive_step de_archive) no_archive_fields es = Ok acc ->
            de_archive (PDictionary es) = Err (MissingField "WebMainResource"))).
Proof.
  split.
  - intros [H|H].
    + exact (de_archive_resource_place _ de_resource_lacks_data v H).
    + exact (de_archive_resource_place _ de_resource_lacks_url v H).
  - intros Hk. cbn [de_archive].
    destruct (visit_entries (archive_step de_archive) no_archive_fields es) as [acc|e] eqn:Hv;
      [|split; [eexists; reflexivity|discriminate]].
    pose proof (visit_entries_get _ _ a_main_resource step_keeps_main_resource _ _ _ Hk Hv)
      as Hm.
    simpl in Hm. unfold finish_archive. rewrite Hm.
    split; [eexists; reflexivity|reflexivity].
Qed.

Lemma required_fields_witness :
  resource_place_with (lacks_key "WebResourceURL")
    (PDictionary [("WebMainResource", PDictionary [("WebResourceData", PData []);
                                                   ("WebResourceMIMEType", PString "a/b")])])
  = true
  /\ (exists e, de_archive
       (PDictionary [("WebMainResource", PDictionary [("WebResourceData", PData []);
                                                      ("WebResourceMIMEType", PString "a/b")])])
       = Err e)
  /\ de_archive (PDictionary [("WebSubresources", PArray [])])
     = Err (MissingField "WebMainResource").
Proof.
  destruct (required_fields
              (PDictionary [("WebMainResource", PDictionary [("WebResourceData", PData []);
                                                             ("WebResourceMIMEType", PString "a/b")])])
              [("WebSubresources", PArray [])]) as [H1 H2].
  split; [reflexivity|]. split.
  - apply H1. right. reflexivity.
  - apply (proj2 (H2 ltac:(simpl; intuition discriminate))
                 {| a_main_resource := None; a_subresources := Some (Some []);
                    a_subframe_archives := None |}).
    reflexivity.
Defined.

(** ** Further properties: the listing, and what survives a write and a read *)

(** [print_list] prints one line per resource, in the order
    [save_archive] saves them (main resource, its subresources, then each
    subframe archive depth first), each with that resource's URL, MIME type
    and data length. *)
Theorem listing_matches_extraction (a : WebArchive) :
  map line_entry (print_list a)
  = map (fun r => (url r, mime_type r, length (data r))) (extraction_order a).
Proof.
  induction a as [m s f IH] using webarchive_ind'.
  simpl. f_equal. rewrite !map_app. f_equal.
  - destruct s as [l|]; [|reflexivity]. simpl. rewrite map_map. reflexivity.
  - destruct f as [l|]; [|reflexivity].
    induction IH as [|x l Hx _ IHl]; [reflexivity|].
    simpl. rewrite !map_app, Hx, IHl. reflexivity.
Qed.

Lemma total_size_normalize (a : WebArchive) : total_size (normalize_archive a) = total_size a.
Proof.
  induction a as [m s f IH] using webarchive_ind'.
  simpl. f_equal; [f_equal|].
  - destruct s as [l|]; [|reflexivity]. simpl. rewrite map_map. reflexivity.
  - destruct f as [l|]; [|reflexivity]. simpl. rewrite map_map. f_equal.
    induction IH as [|x l Hx _ IHl]; [reflexivity|]. simpl. rewrite Hx, IHl. reflexivity.
Qed.

Lemma print_list_normalize (a : WebArchive) : print_list (normalize_archive a) = print_list a.
Proof.
  induction a as [m s f IH] using webarchive_ind'.
  pose proof (total_size_normalize (mkWebArchive m s f)) as Ht.
  change (normalize_archive (mkWebArchive m s f)) with
    (mkWebArchive (normalize_resource m) (option_map (map normalize_resource) s)
       (option_map (map normalize_archive) f)) in Ht |- *.
  cbn [print_list]. rewrite Ht.
  f_equal; [|f_equal].
  - f_equal; [destruct s|destruct f]; simpl; rewrite ?length_map; reflexivity.
  - destruct s as [l|]; [|reflexivity]. simpl. rewrite map_map. reflexivity.
  - destruct f as [l|]; [|reflexivity]. simpl. clear Ht.
    induction IH as [|x l Hx _ IHl]; [reflexivity|]. simpl. rewrite Hx, IHl. reflexivity.
Qed.

Lemma for_each_expect_map {X Y} (f : Y -> written -> outcome * written) (g : X -> Y)
    (f' : X -> written -> outcome * written) (msg : string) (l : list X) :
  (forall x, In x l -> forall w, f (g x) w = f' x w) ->
  forall w, for_each_expect f msg (map g l) w = for_each_expect f' msg l w.
Proof.
  induction l as [|x l IH]; intros H w; [reflexivity|].
  simpl. rewrite (H x (or_introl eq_refl) w).
  destruct (f' x w) as [[| |] w1]; [|reflexivity..].
  apply IH. intros y Hy. apply H. right; exact Hy.
Qed.

Lemma save_archive_normalize table fs_error (a : WebArchive) (inside : string) (w : written) :
  save_archive table fs_error (normalize_archive a) inside w
  = save_archive table fs_error a inside w.
Proof.
  revert w. induction a as [m s f IH] using webarchive_ind'. intros w.
  cbn [normalize_archive save_archive].
  change (save table fs_error (normalize_resource m) inside w)
    with (save table fs_error m inside w).
  destruct (save table fs_error m inside w) as [[| |] w1]; [|reflexivity..].
  destruct s as [l|]; cbn [option_map].
  - rewrite (for_each_expect_map (fun r => save table fs_error r inside) normalize_resource
               (fun r => save table fs_error r inside) _ l) by reflexivity.
    destruct (for_each_expect (fun r => save table fs_error r inside)
                "Could not save subresource" l w1) as [[| |] w2]; [|reflexivity..].
    destruct f as [l'|]; [|reflexivity]. cbn [option_map].
    apply for_each_expect_map. rewrite Forall_forall in IH. intros x Hx w'. apply IH, Hx.
  - destruct f as [l'|]; [|reflexivity]. cbn [option_map].
    apply for_each_expect_map. rewrite Forall_forall in IH. intros x Hx w'. apply IH, Hx.
Qed.

(** Writing an archive and reading it back never changes what
    Inspect prints or what Extract writes, even where the archive read back
    differs (an empty frame name or text encoding read back as absent). *)
Theorem roundtrip_preserves_inspect_extract (a a' : WebArchive) :
  de_archive (se_archive a) = Ok a' ->
  print_list a' = print_list a
  /\ forall table fs_error inside w,
       save_archive table fs_error a' inside w = save_archive table fs_error a inside w.
Proof.
  rewrite de_archive_se. intros H. inversion H; subst. split.
  - apply print_list_normalize.
  - intros. apply save_archive_normalize.
Qed.

Lemma roundtrip_preserves_inspect_extract_witness :
  let a := mkWebArchive {| data := [x41]; url := "about:blank"; frame_name := Some "";
                           mime_type := "text/plain"; text_encoding_name := None;
                           response := None |} None None in
  let a' := mkWebArchive {| data := [x41]; url := "about:blank"; frame_name := None;
                            mime_type := "text/plain"; text_encoding_name := None;
                            response := None |} None None in
  de_archive (se_archive a) = Ok a' /\ a' <> a /\ print_list a' = print_list a.
Proof.
  intros a a'.
  assert (H : de_archive (se_archive a) = Ok a') by reflexivity.
  split; [exact H|]. split; [discriminate|].
  exact (proj1 (roundtrip_preserves_inspect_extract a a' H)).
Defined.

(** ** Further properties: the files a successful extraction leaves *)

Lemma save_done table fs_error (r : WebResource) inside (w w' : written) :
  save table fs_error r inside w = (Done, w') ->
  exists p, save_path table inside r = Some p /\ parent_is_none p = false
            /\ fs_error w p = None /\ w' = (w ++ [(p, data r)])%list.
Proof.
  unfold save. destruct (save_path table inside r) as [p|]; [|discriminate].
  destruct (parent_is_none p) eqn:Hp; [discriminate|].
  destruct (fs_error w p) eqn:Hf; [discriminate|].
  intros H; inversion H; subst. exists p. auto.
Qed.

Lemma save_all_done table fs_error inside (rs : list WebResource) (w w' : written) :
  save_all table fs_error rs inside w = (true, w') ->
  Forall (fun r => save_path table inside r <> None) rs
  /\ w' = (w ++ planned_writes table inside rs)%list.
Proof.
  revert w. induction rs as [|r rs IH]; intros w H.
  - inversion H; subst. rewrite app_nil_r. auto.
  - simpl in H. destruct (save table fs_error r inside w) as [o w1] eqn:Hs.
    destruct o; [|discriminate..].
    destruct (save_done table fs_error r inside w w1 Hs) as [p [Hp [_ [_ ->]]]].
    destruct (IH _ H) as [Hall ->]. split.
    + constructor; [congruence|exact Hall].
    + unfold planned_writes. cbn [flat_map]. rewrite Hp, <- app_assoc. reflexivity.
Qed.

Lemma save_all_succeeds table fs_error inside (rs : list WebResource) (w : written) :
  (forall w0 p, fs_error w0 p = None) ->
  Forall (fun r => exists p, save_path table inside r = Some p /\ parent_is_none p = false) rs ->
  save_all table fs_error rs inside w = (true, (w ++ planned_writes table inside rs)%list).
Proof.
  intros Hfs Hall. revert w. induction Hall as [|r rs [p [Hp Hn]] _ IH]; intros w.
  - simpl. rewrite app_nil_r. reflexivity.
  - simpl. unfold save. rewrite Hp, Hn, Hfs. rewrite IH.
    unfold planned_writes. cbn [flat_map]. rewrite ?Hp, <- app_assoc. reflexivity.
Qed.

Lemma save_archive_done table fs_error inside (a : WebArchive) (w w' : written) :
  save_archive table fs_error a inside w = (Done, w') ->
  Forall (fun r => save_path table inside r <> None) (extraction_order a)
  /\ w' = (w ++ planned_writes table inside (extraction_order a))%list.
Proof.
  intros Hs. destruct (save_archive_agrees table fs_error inside a w) as [Hd Hw].
  rewrite Hs in Hd, Hw. simpl in Hd, Hw.
  destruct (save_all table fs_error (extraction_order a) inside w) as [b w''] eqn:E.
  simpl in Hd, Hw. subst w''. destruct b; [|destruct Hd as [H _]; discriminate (H eq_refl)].
  exact (save_all_done _ _ _ _ _ _ E).
Qed.

(** A completed extraction writes exactly one file per resource, in
    extraction order, each with the resource's data at the path [save]
    derives for it; and when the file system reports no error and every
    derived path has a parent, the extraction completes. *)
Theorem extraction_success (table : mime_table)
    (fs_error : written -> string -> option io_error) (inside : string)
    (a : WebArchive) (w : written) :
  (forall w', save_archive table fs_error a inside w = (Done, w') ->
     Forall (fun r => save_path table inside r <> None) (extraction_order a)
     /\ w' = (w ++ planned_writes table inside (extraction_order a))%list)
  /\ ((forall w0 p, fs_error w0 p = None) ->
      Forall (fun r => exists p, save_path table inside r = Some p
                                 /\ parent_is_none p = false) (extraction_order a) ->
      save_archive table fs_error a inside w
      = (Done, (w ++ planned_writes table inside (extraction_order a))%list)).
Proof.
  destruct (save_archive_agrees table fs_error inside a w) as [Hd Hw].
  split.
  - intros w'. apply save_archive_done.
  - intros Hfs Hall.
    rewrite (save_all_succeeds table fs_error inside _ w Hfs Hall) in Hd, Hw.
    simpl in Hd, Hw. destruct (save_archive table fs_error a inside w) as [o w'].
    simpl in Hd, Hw. subst w'. f_equal. apply Hd. reflexivity.
Qed.

Lemma extraction_success_witness :
  save_archive mime_guess_excerpt (fun _ _ => None)
    (mkWebArchive (res_at "https://crouton.net/" "text/html" [x3c])
       (Some [res_at "https://crouton.net/crouton.png" "image/png" [x89]]) None) "out" []
  = (Done, [("out/crouton.net/_unnamed_index.shtml", [x3c]);
            ("out/crouton.net/crouton.png", [x89])]).
Proof.
  apply (proj2 (extraction_success mime_guess_excerpt (fun _ _ => None) "out"
                  (mkWebArchive (res_at "https://crouton.net/" "text/html" [x3c])
                     (Some [res_at "https://crouton.net/crouton.png" "image/png" [x89]])
                     None) [])).
  - reflexivity.
  - repeat constructor; eexists; split; reflexivity.
Defined.

(** ** Further properties: the command line *)

Lemma trim_back_noslash (rb : list ascii) :
  (forall c, In c rb -> c <> "/"%char) -> rb <> [] -> rb <> ["."%char] -> trim_back rb = rb.
Proof.
  intros Hns Hne Hdot. destruct rb as [|c r]; [congruence|].
  cbn [trim_back]. destruct (Ascii.eqb_spec c "/") as [->|_]; [exfalso; exact (Hns _ (or_introl eq_refl) eq_refl)|].
  destruct (Ascii.eqb_spec c ".") as [->|_]; [|reflexivity].
  destruct r as [|c' r']; [congruence|].
  destruct (Ascii.eqb_spec c' "/") as [->|_]; [|reflexivity].
  exfalso; exact (Hns _ (or_intror (or_introl eq_refl)) eq_refl).
Qed.

Lemma drop_component_noslash (rb : list ascii) :
  (forall c, In c rb -> c <> "/"%char) -> drop_component rb = [].
Proof.
  induction rb as [|c r IH]; intros Hns; [reflexivity|].
  cbn [drop_component]. destruct (Ascii.eqb_spec c "/") as [->|_];
    [exfalso; exact (Hns _ (or_introl eq_refl) eq_refl)|].
  apply IH. intros c' Hc'. apply Hns. right; exact Hc'.
Qed.

(** [Path::parent] of a bare file name (no ['/']) is the empty path. *)
Lemma path_parent_bare (input : string) :
  input <> "" -> ~ In "/"%char (list_ascii_of_string input) -> path_parent input = Some "".
Proof.
  intros Hne Hns.
  assert (Hns' : forall c, In c (list_ascii_of_string input) -> c <> "/"%char)
    by (intros c Hc ->; contradiction).
  destruct input as [|c [|c' rest]]; [congruence| |].
  - assert (Hc : c <> "/"%char) by (apply Hns'; left; reflexivity).
    destruct (Ascii.eqb_spec c ".") as [->|Hd]; [reflexivity|].
    unfold path_parent. cbn [list_ascii_of_string starts_with_slash].
    apply Ascii.eqb_neq in Hc, Hd. rewrite Hc, Hd. cbn. rewrite Hc, ?Hd, Hc. reflexivity.
  - assert (Hc : c <> "/"%char) by (apply Hns'; left; reflexivity).
    assert (Hc' : c' <> "/"%char) by (apply Hns'; right; left; reflexivity).
    unfold path_parent. cbn [list_ascii_of_string starts_with_slash].
    apply Ascii.eqb_neq in Hc, Hc'. rewrite Hc, Hc', andb_false_r. cbn [negb andb orb].
    set (cs := c :: c' :: list_ascii_of_string rest).
    assert (Hcs : forall x, In x (rev cs) -> x <> "/"%char)
      by (intros x Hx; apply Hns'; apply in_rev; exact Hx).
    assert (Hlen : length (rev cs) = S (S (length (list_ascii_of_string rest))))
      by (rewrite length_rev; reflexivity).
    rewrite (trim_back_noslash (rev cs) Hcs).
    + destruct (rev cs) as [|x r] eqn:E; [discriminate|].
      rewrite (drop_component_noslash (x :: r)); [reflexivity|].
      exact Hcs.
    + intros E; rewrite E in Hlen; discriminate.
    + intros E; rewrite E in Hlen; discriminate.
Qed.

(** Extracting an input given as a bare file name (no ['/']) without
    [-o] behaves exactly as extracting into the empty path: the input's
    parent is [""], so each resource is written at its URL with the scheme
    cut off (and the generated index name for a trailing ['/']), relative to
    the current directory. *)
Theorem extract_bare_file_name (table : mime_table)
    (fs_error : written -> string -> option io_error) (load : string -> option plist)
    (input : string) (w : written) :
  input <> "" -> ~ In "/"%char (list_ascii_of_string input) ->
  main table fs_error load (Extract input None) w
  = main table fs_error load (Extract input (Some "")) w
  /\ (forall r, save_path table "" r =
        match iter_last (splitn2 (url r)) with
        | None => None
        | Some u =>
            if ends_with_slash u then
              match guessed_ext table (mime_type r) with
              | None => None
              | Some ext => Some (u ++ "_unnamed_index." ++ ext)
              end
            else Some u
        end).
Proof.
  intros Hne Hns. split.
  - unfold main. cbv iota. rewrite (path_parent_bare input Hne Hns). reflexivity.
  - intros r. unfold save_path.
    destruct (iter_last (splitn2 (url r))) as [u|]; [|reflexivity].
    destruct (ends_with_slash u); [destruct (guessed_ext table (mime_type r))|];
      try reflexivity; unfold path_join; destruct (starts_with_slash _); reflexivity.
Qed.

Lemma extract_bare_file_name_witness :
  main mime_guess_excerpt (fun _ _ => None)
    (fun _ => Some (se_archive
       (mkWebArchive (res_at "https://crouton.net/" "text/html" [x3c])
          (Some [res_at "https://crouton.net/crouton.png" "image/png" [x89]]) None)))
    (Extract "crouton.webarchive" None) []
  = (MainOk, [], [("crouton.net/_unnamed_index.shtml", [x3c]);
                  ("crouton.net/crouton.png", [x89])]).
Proof.
  rewrite (proj1 (extract_bare_file_name mime_guess_excerpt (fun _ _ => None)
    (fun _ => Some (se_archive
       (mkWebArchive (res_at "https://crouton.net/" "text/html" [x3c])
          (Some [res_at "https://crouton.net/crouton.png" "image/png" [x89]]) None)))
    "crouton.webarchive" [] ltac:(discriminate) ltac:(simpl; intuition discriminate))).
  reflexivity.
Defined.
